(** * Flappy Bird clone: the game loop of [routes/FlappyBird.svelte]

    A shallow embedding of the component's script block: the physics tick
    ([update]), the collision predicate ([isColliding]), the obstacle
    generator ([addPipe]), the three game flags with their operations
    ([startGame], [togglePause], [flap], [endGame]), the frame callback
    ([animate]), the input routers ([handleStartInput], [onKeydown]) and the
    best-score lookup done on mount.

    Numbers.  JavaScript numbers are modelled by exact rationals ([Q]): every
    finite double is a rational and the comparisons of the source are the
    comparisons of those rationals; rounding of sums is not modelled.  The two
    counters ([score], [bestScore]) only ever hold integers or, for
    [bestScore], the [NaN] that [parseInt] can return, so they are [Z] and
    [num].

    Host.  What the script reads from the browser is explicit: [localStorage]
    is a finite map from keys to strings, [requestAnimationFrame] and
    [cancelAnimationFrame] act on a set of pending callback handles, and
    [Math.random] is a sequence [random : nat -> Q] read at an index that
    counts the calls made so far.  Canvas drawing ([draw], [roundedRect])
    writes nothing the game reads and is left out, but for the choice of the
    overlay at the end of [draw] and the label of the button. *)

From Stdlib Require Import QArith Qround Qminmax Lqa ZArith Lia Ascii String.
From stdpp Require Import gmap strings list pretty.

Local Open Scope Q_scope.

(** ** Numbers *)

(** [a < b] on JavaScript numbers, as a boolean. *)
Definition Qltb (a b : Q) : bool :=
  (Qnum a * QDen b <? Qnum b * QDen a)%Z.

(** [a > b]. *)
Definition Qgtb (a b : Q) : bool := Qltb b a.

(** A number that is an integer or [NaN]: the values [parseInt] returns. *)
Inductive num : Type :=
  | NaN
  | Int (z : Z).

(** [n > b] for an integer [n] and a possibly-[NaN] [b]: every comparison
    with [NaN] is false. *)
Definition gt_num (n : Z) (b : num) : bool :=
  match b with
  | NaN => false
  | Int z => (z <? n)%Z
  end.

(** ** [parseInt] with no radix argument *)

(** White space skipped in front of the number (the ASCII part of the
    ECMAScript set: TAB, LF, VT, FF, CR, SP). *)
Definition isWhiteSpace (c : ascii) : bool :=
  let n := nat_of_ascii c in
  ((9 <=? n)%nat && (n <=? 13)%nat) || (n =? 32)%nat.

Fixpoint trimStart (s : string) : string :=
  match s with
  | String c rest => if isWhiteSpace c then trimStart rest else s
  | EmptyString => EmptyString
  end.

(** Value of a character as a digit: [0-9], then [a-z] or [A-Z] for 10..35. *)
Definition digitValue (c : ascii) : option Z :=
  let n := Z.of_nat (nat_of_ascii c) in
  if ((48 <=? n) && (n <=? 57))%Z then Some (n - 48)%Z
  else if ((97 <=? n) && (n <=? 122))%Z then Some (n - 87)%Z
  else if ((65 <=? n) && (n <=? 90))%Z then Some (n - 55)%Z
  else None.

(** Reads the longest prefix of radix-[R] digits; [acc] is [None] until the
    first digit has been read. *)
Fixpoint parseDigits (R : Z) (s : string) (acc : option Z) : option Z :=
  match s with
  | String c rest =>
      match digitValue c with
      | Some d =>
          if (d <? R)%Z
          then parseDigits R rest (Some (default 0%Z acc * R + d)%Z)
          else acc
      | None => acc
      end
  | EmptyString => acc
  end.

(** The sign: [-1] after a leading minus, [1] otherwise; a leading sign
    character is removed. *)
Definition stripSign (s : string) : Z * string :=
  match s with
  | String "-"%char rest => ((-1)%Z, rest)
  | String "+"%char rest => (1%Z, rest)
  | _ => (1%Z, s)
  end.

(** The radix: 16 after a leading [0x] or [0X], which is removed, and 10
    otherwise. *)
Definition stripPrefix (s : string) : Z * string :=
  match s with
  | String "0"%char (String "x"%char rest) => (16%Z, rest)
  | String "0"%char (String "X"%char rest) => (16%Z, rest)
  | _ => (10%Z, s)
  end.

Definition parseInt (s : string) : num :=
  let '(sign, s2) := stripSign (trimStart s) in
  let '(R, s3) := stripPrefix s2 in
  match parseDigits R s3 None with
  | None => NaN
  | Some m => Int (sign * m)
  end.

(** ** Constants *)

Definition PIPE_WIDTH : Q := 52.
Definition BIRD_SIZE : Q := 36.
Definition GRAVITY : Q := 0.55.
Definition JUMP : Q := -8.5.
Definition PIPE_GAP : Q := 114.
Definition PIPE_INTERVAL : Q := 92.
Definition BIRD_X : Q := 56.
Definition GAME_SPEED : Q := 2.2.
Definition GROUND_HEIGHT : Q := 54.
Definition MAX_PIPE_HEIGHT : Q := 260.
Definition MIN_PIPE_HEIGHT : Q := 40.

(** The key of the persisted best score. *)
Definition BEST_KEY : string := "flappybird_best".

(** ** Data *)

Module Pipe.
(** [passed] is an optional field: [addPipe] leaves it out ([None]) and the
    scoring loop sets it to [true]. *)
Record t : Type := mk {
  x : Q;
  width : Q;
  height : Q;
  gap : Q;
  passed : option bool
}.

(** [pipe.passed] used as a condition: a missing field is falsy. *)
Definition isPassed (p : t) : bool := default false (passed p).

Definition set_x (v : Q) (p : t) : t :=
  mk v (width p) (height p) (gap p) (passed p).
Definition set_passed (v : bool) (p : t) : t :=
  mk (x p) (width p) (height p) (gap p) (Some v).

(** Everything but the [passed] flag. *)
Definition geometry (p : t) : Q * Q * Q * Q :=
  (x p, width p, height p, gap p).
End Pipe.

Module Bird.
Record t : Type := mk {
  x : Q;
  y : Q;
  vy : Q;
  width : Q;
  height : Q
}.

Definition set_y (v : Q) (b : t) : t := mk (x b) v (vy b) (width b) (height b).
Definition set_vy (v : Q) (b : t) : t := mk (x b) (y b) v (width b) (height b).
End Bird.

(** The component's variables, followed by the part of the host they act on. *)
Record Game : Type := mkGame {
  baseWidth : Q;
  baseHeight : Q;
  animationFrame : option N;
  gameStarted : bool;
  gamePaused : bool;
  gameOver : bool;
  score : Z;
  bestScore : num;
  pipes : list Pipe.t;
  bird : Bird.t;
  (* host *)
  localStorage : gmap string string;
  frameQueue : gset N;
  nextHandle : N;
  random : nat → Q;
  randomCalls : nat
}.

Definition set_baseSize (w h : Q) (g : Game) : Game :=
  mkGame w h (animationFrame g) (gameStarted g) (gamePaused g) (gameOver g)
    (score g) (bestScore g) (pipes g) (bird g)
    (localStorage g) (frameQueue g) (nextHandle g) (random g) (randomCalls g).
Definition set_animationFrame (v : option N) (g : Game) : Game :=
  mkGame (baseWidth g) (baseHeight g) v (gameStarted g) (gamePaused g) (gameOver g)
    (score g) (bestScore g) (pipes g) (bird g)
    (localStorage g) (frameQueue g) (nextHandle g) (random g) (randomCalls g).
Definition set_gameStarted (v : bool) (g : Game) : Game :=
  mkGame (baseWidth g) (baseHeight g) (animationFrame g) v (gamePaused g) (gameOver g)
    (score g) (bestScore g) (pipes g) (bird g)
    (localStorage g) (frameQueue g) (nextHandle g) (random g) (randomCalls g).
Definition set_gamePaused (v : bool) (g : Game) : Game :=
  mkGame (baseWidth g) (baseHeight g) (animationFrame g) (gameStarted g) v (gameOver g)
    (score g) (bestScore g) (pipes g) (bird g)
    (localStorage g) (frameQueue g) (nextHandle g) (random g) (randomCalls g).
Definition set_gameOver (v : bool) (g : Game) : Game :=
  mkGame (baseWidth g) (baseHeight g) (animationFrame g) (gameStarted g) (gamePaused g) v
    (score g) (bestScore g) (pipes g) (bird g)
    (localStorage g) (frameQueue g) (nextHandle g) (random g) (randomCalls g).
Definition set_score (v : Z) (g : Game) : Game :=
  mkGame (baseWidth g) (baseHeight g) (animationFrame g) (gameStarted g) (gamePaused g)
    (gameOver g) v (bestScore g) (pipes g) (bird g)
    (localStorage g) (frameQueue g) (nextHandle g) (random g) (randomCalls g).
Definition set_bestScore (v : num) (g : Game) : Game :=
  mkGame (baseWidth g) (baseHeight g) (animationFrame g) (gameStarted g) (gamePaused g)
    (gameOver g) (score g) v (pipes g) (bird g)
    (localStorage g) (frameQueue g) (nextHandle g) (random g) (randomCalls g).
Definition set_pipes (v : list Pipe.t) (g : Game) : Game :=
  mkGame (baseWidth g) (baseHeight g) (animationFrame g) (gameStarted g) (gamePaused g)
    (gameOver g) (score g) (bestScore g) v (bird g)
    (localStorage g) (frameQueue g) (nextHandle g) (random g) (randomCalls g).
Definition set_bird (v : Bird.t) (g : Game) : Game :=
  mkGame (baseWidth g) (baseHeight g) (animationFrame g) (gameStarted g) (gamePaused g)
    (gameOver g) (score g) (bestScore g) (pipes g) v
    (localStorage g) (frameQueue g) (nextHandle g) (random g) (randomCalls g).
Definition set_localStorage (v : gmap string string) (g : Game) : Game :=
  mkGame (baseWidth g) (baseHeight g) (animationFrame g) (gameStarted g) (gamePaused g)
    (gameOver g) (score g) (bestScore g) (pipes g) (bird g)
    v (frameQueue g) (nextHandle g) (random g) (randomCalls g).
Definition set_frameQueue (v : gset N) (g : Game) : Game :=
  mkGame (baseWidth g) (baseHeight g) (animationFrame g) (gameStarted g) (gamePaused g)
    (gameOver g) (score g) (bestScore g) (pipes g) (bird g)
    (localStorage g) v (nextHandle g) (random g) (randomCalls g).
Definition set_nextHandle (v : N) (g : Game) : Game :=
  mkGame (baseWidth g) (baseHeight g) (animationFrame g) (gameStarted g) (gamePaused g)
    (gameOver g) (score g) (bestScore g) (pipes g) (bird g)
    (localStorage g) (frameQueue g) v (random g) (randomCalls g).
Definition set_randomCalls (v : nat) (g : Game) : Game :=
  mkGame (baseWidth g) (baseHeight g) (animationFrame g) (gameStarted g) (gamePaused g)
    (gameOver g) (score g) (bestScore g) (pipes g) (bird g)
    (localStorage g) (frameQueue g) (nextHandle g) (random g) v.

(** The script's initial values, on a host whose storage is [ls] and whose
    [Math.random()] returns [rnd 0], [rnd 1], ... *)
Definition initialGame (rnd : nat → Q) (ls : gmap string string) : Game :=
  {| baseWidth := 400;
     baseHeight := 600;
     animationFrame := None;
     gameStarted := false;
     gamePaused := false;
     gameOver := false;
     score := 0;
     bestScore := Int 0;
     pipes := [];
     bird := Bird.mk BIRD_X (600 / 2) 0 BIRD_SIZE BIRD_SIZE;
     localStorage := ls;
     frameQueue := ∅;
     nextHandle := 1;
     random := rnd;
     randomCalls := 0 |}.

(** ** Collision predicate *)

Definition isColliding (x1 y1 w1 h1 x2 y2 w2 h2 : Q) : bool :=
  Qltb x1 (x2 + w2) &&
  Qgtb (x1 + w1) x2 &&
  Qltb y1 (y2 + h2) &&
  Qgtb (y1 + h1) y2.

(** ** Host operations *)

(** [requestAnimationFrame(animate)]: queues the callback under a fresh
    handle and returns the handle. *)
Definition requestAnimationFrame (g : Game) : N * Game :=
  let h := nextHandle g in
  (h, set_nextHandle (N.succ h) (set_frameQueue ({[h]} ∪ frameQueue g) g)).

(** [cancelAnimationFrame(h)]: nothing happens for [undefined] or for a
    handle that is not pending. *)
Definition cancelAnimationFrame (h : option N) (g : Game) : Game :=
  match h with
  | Some h => set_frameQueue (frameQueue g ∖ {[h]}) g
  | None => g
  end.

(** [localStorage.getItem('flappybird_best')] followed by
    [raw ? parseInt(raw) : 0]: [null] and the empty string are falsy. *)
Definition loadBestScore (ls : gmap string string) : num :=
  match ls !! BEST_KEY with
  | Some raw =>
      match raw with
      | EmptyString => Int 0
      | _ => parseInt raw
      end
  | None => Int 0
  end.

(** [e.key.toLowerCase()] on ASCII letters. *)
Definition lowerChar (c : ascii) : ascii :=
  let n := nat_of_ascii c in
  if ((65 <=? n) && (n <=? 90))%nat then ascii_of_nat (n + 32) else c.

Fixpoint toLowerCase (s : string) : string :=
  match s with
  | String c rest => String (lowerChar c) (toLowerCase rest)
  | EmptyString => EmptyString
  end.

(** Case analysis on a game value: its fields, with the frame handle split
    into present and absent. *)
Ltac game_cases g := destruct g as [? ? [?|] ? ? ? ? ? ? ? ? ? ? ? ?].

(** ** The engine *)

(** [Math.random()]: the next value of the host's sequence. *)
Definition mathRandom (g : Game) : Q * Game :=
  (random g (randomCalls g), set_randomCalls (S (randomCalls g)) g).

Definition addPipe (g : Game) : Game :=
  let '(r, g1) := mathRandom g in
  let topH :=
    inject_Z (Qfloor (r * (MAX_PIPE_HEIGHT - MIN_PIPE_HEIGHT))) + MIN_PIPE_HEIGHT in
  set_pipes
    (pipes g1 ++ [Pipe.mk (baseWidth g1) PIPE_WIDTH topH PIPE_GAP None]) g1.

Definition resetGame (g : Game) : Game :=
  let g1 := set_pipes [] g in
  let g2 := set_score 0 g1 in
  let g3 :=
    set_bird (Bird.mk BIRD_X (baseHeight g2 / 2) 0 BIRD_SIZE BIRD_SIZE) g2 in
  addPipe g3.

Definition endGame (g : Game) : Game :=
  let g1 := set_gameOver true g in
  cancelAnimationFrame (animationFrame g1) g1.

(** The scoring branch of one loop iteration: [score += 1],
    [pipe.passed = true], then the best-score update and its write. *)
Definition scorePipe (pipe : Pipe.t) (g : Game) : Pipe.t * Game :=
  let g1 := set_score (score g + 1) g in
  let pipe1 := Pipe.set_passed true pipe in
  if gt_num (score g1) (bestScore g1) then
    let g2 := set_bestScore (Int (score g1)) g1 in
    (pipe1,
     set_localStorage (<[BEST_KEY := pretty (score g1)]> (localStorage g2)) g2)
  else (pipe1, g1).

Definition hitsPipe (pipe : Pipe.t) (g : Game) : bool :=
  let b := bird g in
  let hitUpper :=
    isColliding (Bird.x b) (Bird.y b) (Bird.width b) (Bird.height b)
      (Pipe.x pipe) 0 PIPE_WIDTH (Pipe.height pipe) in
  let hitLower :=
    isColliding (Bird.x b) (Bird.y b) (Bird.width b) (Bird.height b)
      (Pipe.x pipe) (Pipe.height pipe + PIPE_GAP) PIPE_WIDTH
      (baseHeight g - GROUND_HEIGHT - (Pipe.height pipe + PIPE_GAP)) in
  hitUpper || hitLower.

(** The loop [for (let pipe of pipes)] of "Collision & scoring".  It
    returns the pipes as the loop leaves them; on a hit the loop stops,
    so the pipes from the hit one on are as they were. *)
Fixpoint collideAndScore (ps : list Pipe.t) (g : Game) : list Pipe.t * Game :=
  match ps with
  | [] => ([], g)
  | pipe :: rest =>
      if hitsPipe pipe g then (pipe :: rest, endGame g)
      else
        let '(pipe1, g1) :=
          if negb (Pipe.isPassed pipe)
             && Qgtb (Bird.x (bird g)) (Pipe.x pipe + PIPE_WIDTH)
          then scorePipe pipe g
          else (pipe, g) in
        let '(rest1, g2) := collideAndScore rest g1 in
        (pipe1 :: rest1, g2)
  end.

Definition movePipe (pipe : Pipe.t) : Pipe.t :=
  Pipe.set_x (Pipe.x pipe - GAME_SPEED) pipe.

(** "Remove off-screen pipes": at most the first pipe is shifted out. *)
Definition cull (ps : list Pipe.t) : list Pipe.t :=
  match ps with
  | pipe0 :: rest => if Qltb (Pipe.x pipe0 + PIPE_WIDTH) 0 then rest else ps
  | [] => []
  end.

(** The condition of "Add pipes at interval". *)
Definition spawnDue (g : Game) : bool :=
  match last (pipes g) with
  | None => true
  | Some pipe => Qltb (Pipe.x pipe) (baseWidth g - PIPE_INTERVAL)
  end.

(** The bird after [bird.vy += GRAVITY; bird.y += bird.vy]. *)
Definition integrate (b : Bird.t) : Bird.t :=
  let b1 := Bird.set_vy (Bird.vy b + GRAVITY) b in
  Bird.set_y (Bird.y b1 + Bird.vy b1) b1.

(** "bird physics": the integration step of the tick. *)
Definition fall (g : Game) : Game := set_bird (integrate (bird g)) g.

(** The condition of "ground collision", read after the integration. *)
Definition onGround (g : Game) : bool :=
  Qgtb (Bird.y (bird g) + BIRD_SIZE) (baseHeight g - GROUND_HEIGHT).

(** The body of the ground branch, up to its [return]. *)
Definition land (g : Game) : Game :=
  endGame
    (set_bird (Bird.set_y (baseHeight g - GROUND_HEIGHT - BIRD_SIZE) (bird g)) g).

(** "ceiling". *)
Definition clampCeiling (g : Game) : Game :=
  if Qltb (Bird.y (bird g)) 0 then set_bird (Bird.set_y 0 (bird g)) g else g.

(** "move pipes and respawn as needed": move, remove, add. *)
Definition scroll (g : Game) : Game :=
  let g1 := set_pipes (map movePipe (pipes g)) g in
  let g2 := set_pipes (cull (pipes g1)) g1 in
  if spawnDue g2 then addPipe g2 else g2.

(** "Collision & scoring". *)
Definition collide (g : Game) : Game :=
  let '(ps, g1) := collideAndScore (pipes g) g in
  set_pipes ps g1.

Definition update (g : Game) : Game :=
  let g1 := fall g in
  if onGround g1 then land g1
  else collide (scroll (clampCeiling g1)).

(** The frame callback.  [draw()] is not modelled. *)
Definition animate (g : Game) : Game :=
  if gamePaused g then g
  else
    let g1 := update g in
    if negb (gameOver g1) then
      let '(h, g2) := requestAnimationFrame g1 in
      set_animationFrame (Some h) g2
    else g1.

Definition startGame (g : Game) : Game :=
  let g1 := resetGame g in
  let g2 := set_gameStarted true g1 in
  let g3 := set_gameOver false g2 in
  let g4 := set_gamePaused false g3 in
  animate g4.

Definition togglePause (g : Game) : Game :=
  if negb (gameStarted g) || gameOver g then g
  else if gamePaused g then animate (set_gamePaused false g)
  else cancelAnimationFrame (animationFrame g) (set_gamePaused true g).

Definition flap (g : Game) : Game :=
  if negb (gameStarted g) then g
  else if gameOver g then g
  else set_bird (Bird.set_vy JUMP (bird g)) g.

(** [resizeCanvas] with [window.innerWidth = innerWidth]; the canvas
    attributes and the redraw are not modelled. *)
Definition resizeCanvas (innerWidth : Q) (g : Game) : Game :=
  let width :=
    if Qgtb innerWidth 480 then 400 else Qmin 400 (innerWidth - 20) in
  let height := (width / 400) * 600 in
  set_baseSize width height g.

Definition handleStartInput (g : Game) : Game :=
  if negb (gameStarted g) || (gameOver g && negb (gamePaused g)) then startGame g
  else if gamePaused g then togglePause g
  else flap g.

Definition isPrimaryKey (key : string) : bool :=
  bool_decide (key = " ") || bool_decide (key = "ArrowUp").

Definition onKeydown (key : string) (g : Game) : Game :=
  let g1 :=
    if isPrimaryKey key then
      if negb (gameStarted g) || gameOver g then startGame g
      else if gamePaused g then togglePause g
      else flap g
    else g in
  let g2 :=
    if bool_decide (toLowerCase key = "p") && gameStarted g1 && negb (gameOver g1)
    then togglePause g1 else g1 in
  if bool_decide (toLowerCase key = "r") && gameOver g2
  then startGame g2 else g2.

Definition onTouchStart (g : Game) : Game := handleStartInput g.
Definition onClick (g : Game) : Game := handleStartInput g.

(** The button under the canvas: "Start"/"Restart" when the game is not
    started or over, "Pause"/"Resume" otherwise. *)
Definition onMainButton (g : Game) : Game :=
  if negb (gameStarted g) || gameOver g then startGame g else togglePause g.

(** [onMount]: first sizing, then the best score read from storage. *)
Definition onMount (rnd : nat → Q) (innerWidth : Q) (ls : gmap string string) : Game :=
  let g := resizeCanvas innerWidth (initialGame rnd ls) in
  set_bestScore (loadBestScore (localStorage g)) g.

(** The host runs the pending callback [h]: it leaves the queue, then
    [animate] runs.  [None] when [h] is not pending. *)
Definition runFrame (h : N) (g : Game) : option Game :=
  if bool_decide (h ∈ frameQueue g)
  then Some (animate (set_frameQueue (frameQueue g ∖ {[h]}) g))
  else None.

(** What can happen to a mounted component. *)
Inductive Event : Type :=
  | CallStartGame
  | CallTogglePause
  | CallFlap
  | Frame (h : N)
  | Pointer
  | Keydown (key : string)
  | MainButton
  | Resize (innerWidth : Q).

Definition handle (e : Event) (g : Game) : option Game :=
  match e with
  | CallStartGame => Some (startGame g)
  | CallTogglePause => Some (togglePause g)
  | CallFlap => Some (flap g)
  | Frame h => runFrame h g
  | Pointer => Some (handleStartInput g)
  | Keydown key => Some (onKeydown key g)
  | MainButton => Some (onMainButton g)
  | Resize w => Some (resizeCanvas w g)
  end.

(** The events the page can deliver: the three functions are only reached
    through the routers and the button. *)
Definition isPageEvent (e : Event) : bool :=
  match e with
  | CallStartGame | CallTogglePause | CallFlap => false
  | _ => true
  end.

(** Runs a list of events, stopping with [None] at a frame that is not
    pending. *)
Fixpoint run (es : list Event) (g : Game) : option Game :=
  match es with
  | [] => Some g
  | e :: rest =>
      match handle e g with
      | Some g1 => run rest g1
      | None => None
      end
  end.

(** States a mounted component can be in. *)
Inductive reachable : Game → Prop :=
  | reachable_mount (rnd : nat → Q) (innerWidth : Q) (ls : gmap string string) :
      reachable (onMount rnd innerWidth ls)
  | reachable_step (g g1 : Game) (e : Event) :
      reachable g → handle e g = Some g1 → reachable g1.

(** The four states of the game, read off the three flags. *)
Inductive GameState : Type := NotStarted | Running | Paused | GameOver.

Definition stateOf (g : Game) : option GameState :=
  match gameStarted g, gamePaused g, gameOver g with
  | false, false, false => Some NotStarted
  | true, false, false => Some Running
  | true, true, false => Some Paused
  | true, false, true => Some GameOver
  | _, _, _ => None
  end.

(** ** Predicates of the statements *)

(** The fields a tick never writes. *)
Definition sameSettings (g g1 : Game) : Prop :=
  baseWidth g1 = baseWidth g ∧ baseHeight g1 = baseHeight g
  ∧ gameStarted g1 = gameStarted g ∧ gamePaused g1 = gamePaused g.

(** Before the first start nothing is paused, over or scheduled, and a
    paused game is not over. *)
Definition flagsOk (g : Game) : Prop :=
  (gameStarted g = false →
     gamePaused g = false ∧ gameOver g = false ∧ frameQueue g = ∅)
  ∧ (gamePaused g = true → gameOver g = false).

(** The state in which [startGame] runs its first tick. *)
Definition freshRun (g : Game) : Game :=
  set_gamePaused false (set_gameOver false (set_gameStarted true (resetGame g))).

(** [q] is paused and holds the world of [g]. *)
Definition frozen (g q : Game) : Prop :=
  stateOf q = Some Paused
  ∧ bird q = bird g ∧ pipes q = pipes g ∧ score q = score g
  ∧ bestScore q = bestScore g ∧ localStorage q = localStorage g.

(** The pipe [addPipe] makes from the random draw [r] at width [w]. *)
Definition newPipe (w r : Q) : Pipe.t :=
  Pipe.mk w PIPE_WIDTH
    (inject_Z (Qfloor (r * (MAX_PIPE_HEIGHT - MIN_PIPE_HEIGHT))) + MIN_PIPE_HEIGHT)
    PIPE_GAP None.




(** [b] is [a], or both are integers and [b] is the larger. *)
Definition best_le (a b : num) : Prop :=
  a = b ∨ ∃ x y : Z, a = Int x ∧ b = Int y ∧ (x < y)%Z.

(** The best score and its stored copy in [g1], for a score that started
    at [s0] in [g]: if the score has grown and is above the old best, both
    hold the score; if not, both are as in [g]. *)
Definition bestFrom (s0 : Z) (g g1 : Game) : Prop :=
  if (s0 <? score g1)%Z && gt_num (score g1) (bestScore g)
  then bestScore g1 = Int (score g1)
       ∧ localStorage g1 = <[BEST_KEY := pretty (score g1)]> (localStorage g)
  else bestScore g1 = bestScore g ∧ localStorage g1 = localStorage g.

(** A string that is empty or starts with a decimal digit. *)
Definition digitsAhead (s : string) : Prop :=
  s = EmptyString ∨ ∃ d r, s = String (pretty_N_char d) r ∧ (d < 10)%N.

(** ** Concrete games *)

(** A random source that always draws one half. *)
Definition midDraw : nat → Q := λ _, 0.5.

(** Mounted in a wide window with empty storage; then started; then paused. *)
Definition mounted : Game := onMount midDraw 500 ∅.
Definition playing : Game := startGame mounted.
Definition pausedGame : Game := togglePause playing.





(** The running game with its pipe about to clear the bird, which flies at
    the height of the gap. *)
Definition aboutToPass : Game :=
  set_pipes [Pipe.mk 5 PIPE_WIDTH 150 PIPE_GAP None]
    (set_bird (Bird.mk BIRD_X 200 0 BIRD_SIZE BIRD_SIZE) playing).


(** ** Further definitions *)

(** States a mounted component gets into through what the page delivers:
    frame callbacks, pointer presses, keys, the button and resizes. *)
Inductive pageReachable : Game → Prop :=
  | pageReachable_mount (rnd : nat → Q) (innerWidth : Q) (ls : gmap string string) :
      pageReachable (onMount rnd innerWidth ls)
  | pageReachable_step (g g1 : Game) (e : Event) :
      pageReachable g → isPageEvent e = true → handle e g = Some g1 →
      pageReachable g1.

(** One frame callback is pending while the game runs, the one whose handle
    [animationFrame] holds; none is pending otherwise. *)
Definition scheduleOk (g : Game) : Prop :=
  match stateOf g with
  | Some Running => ∃ h, animationFrame g = Some h ∧ frameQueue g = {[h]}
  | Some _ => frameQueue g = ∅
  | None => False
  end.

(** The moves between the four states that the operations make. *)
Definition allowedTransition (s s1 : GameState) : bool :=
  match s, s1 with
  | NotStarted, (NotStarted | Running | GameOver) => true
  | Running, (Running | Paused | GameOver) => true
  | Paused, (Paused | Running | GameOver) => true
  | GameOver, (GameOver | Running) => true
  | _, _ => false
  end.





(** A pipe as [addPipe] makes them: constant width and gap, and an integer
    height from 40 to 259. *)
Definition wellShaped (p : Pipe.t) : Prop :=
  Pipe.width p = PIPE_WIDTH ∧ Pipe.gap p = PIPE_GAP
  ∧ ∃ z : Z, Pipe.height p == inject_Z z ∧ (40 <= z < 260)%Z.

(** The overlay [draw] paints over the scene, chosen by the chain of tests
    at its end ("Overlay UI for start/paused/game over"). *)
Inductive Overlay : Type := StartPrompt | PausedPrompt | GameOverSummary.

Definition overlay (g : Game) : option Overlay :=
  if negb (gameStarted g) then Some StartPrompt
  else if gamePaused g && negb (gameOver g) then Some PausedPrompt
  else if gameOver g then Some GameOverSummary
  else None.

(** The text of the button under the canvas. *)
Definition mainButtonLabel (g : Game) : string :=
  if negb (gameStarted g) || gameOver g
  then (if gameOver g then "Restart" else "Start")
  else (if gamePaused g then "Resume" else "Pause").

(** The two games have the same width, height and random source. *)
Definition sameWorldSize (g g1 : Game) : Prop :=
  baseWidth g1 = baseWidth g ∧ baseHeight g1 = baseHeight g
  ∧ random g1 = random g.





(** Start and let the bird fall: the 27th frame ends the game on the
    ground. *)
Definition fallTrace : list Event :=
  Pointer :: map (λ h, Frame (N.of_nat h)) (seq 1 27).

(** The state that trace ends in. *)
Definition crashed : Game := default mounted (run fallTrace mounted).


(** ** Comparisons *)

Lemma Qltb_lt (a b : Q) : Qltb a b = true ↔ a < b.
Proof. unfold Qltb, Qlt. apply Z.ltb_lt. Qed.

Lemma Qltb_ge (a b : Q) : Qltb a b = false ↔ b <= a.
Proof. unfold Qltb, Qle. apply Z.ltb_ge. Qed.

Lemma Qgtb_gt (a b : Q) : Qgtb a b = true ↔ a > b.
Proof. apply Qltb_lt. Qed.

Lemma Qgtb_le (a b : Q) : Qgtb a b = false ↔ a <= b.
Proof. apply Qltb_ge. Qed.


(** ** The collision predicate *)


(** ** What the loop and the tick leave alone *)

Lemma sameSettings_trans (g1 g2 g3 : Game) :
  sameSettings g1 g2 → sameSettings g2 g3 → sameSettings g1 g3.
Proof. unfold sameSettings. intuition congruence. Qed.

(** The scoring loop only writes the score, the best score and its stored
    copy, and ends the game on a hit. *)
Lemma collideAndScore_shape (ps : list Pipe.t) (g : Game) :
  ∃ (s : Z) (b : num) (ls : gmap string string) (hit : bool),
    (collideAndScore ps g).2 =
      (if hit then endGame else id)
        (set_localStorage ls (set_bestScore b (set_score s g))).
Proof.
  revert g. induction ps as [|pipe rest IH]; intros g; simpl.
  - exists (score g), (bestScore g), (localStorage g), false.
    destruct g; reflexivity.
  - destruct (hitsPipe pipe g).
    + exists (score g), (bestScore g), (localStorage g), true.
      destruct g; reflexivity.
    + destruct (negb (Pipe.isPassed pipe) && _).
      * unfold scorePipe. destruct (gt_num _ _).
        -- match goal with |- context [collideAndScore rest ?g1] =>
             destruct (IH g1) as (s & b & ls & hit & E);
             destruct (collideAndScore rest g1) as [rest1 g2] end.
           simpl in *. exists s, b, ls, hit. rewrite E.
           destruct g, hit; reflexivity.
        -- match goal with |- context [collideAndScore rest ?g1] =>
             destruct (IH g1) as (s & b & ls & hit & E);
             destruct (collideAndScore rest g1) as [rest1 g2] end.
           simpl in *. exists s, b, ls, hit. rewrite E.
           destruct g, hit; reflexivity.
      * destruct (IH g) as (s & b & ls & hit & E).
        destruct (collideAndScore rest g) as [rest1 g2].
        simpl in *. eauto 6.
Qed.

Lemma collide_shape (g : Game) :
  ∃ (ps : list Pipe.t) (s : Z) (b : num) (ls : gmap string string) (hit : bool),
    collide g =
      set_pipes ps
        ((if hit then endGame else id)
           (set_localStorage ls (set_bestScore b (set_score s g)))).
Proof.
  unfold collide.
  destruct (collideAndScore_shape (pipes g) g) as (s & b & ls & hit & E).
  destruct (collideAndScore (pipes g) g) as [ps g1]. simpl in E.
  exists ps, s, b, ls, hit. by rewrite E.
Qed.


Lemma collide_settings (g : Game) : sameSettings g (collide g).
Proof.
  destruct (collide_shape g) as (ps & s & b & ls & hit & ->).
  game_cases g; destruct hit; repeat split.
Qed.

Lemma collide_animationFrame (g : Game) :
  animationFrame (collide g) = animationFrame g
  ∧ nextHandle (collide g) = nextHandle g
  ∧ randomCalls (collide g) = randomCalls g.
Proof.
  destruct (collide_shape g) as (ps & s & b & ls & hit & ->).
  game_cases g; destruct hit; repeat split.
Qed.

Lemma cancel_frameQueue (h : option N) (g : Game) :
  frameQueue (cancelAnimationFrame h g) ⊆ frameQueue g.
Proof. destruct h; simpl; [apply subseteq_difference_l|]; done. Qed.

Lemma collide_frameQueue (g : Game) : frameQueue (collide g) ⊆ frameQueue g.
Proof.
  destruct (collide_shape g) as (ps & s & b & ls & hit & ->).
  destruct hit; [|by destruct g].
  unfold endGame. simpl. etrans; [apply cancel_frameQueue|by destruct g].
Qed.

Lemma collide_gameOver (g : Game) :
  gameOver g = true → gameOver (collide g) = true.
Proof.
  destruct (collide_shape g) as (ps & s & b & ls & hit & ->).
  game_cases g; destruct hit; simpl; done.
Qed.


Lemma scroll_settings (g : Game) : sameSettings g (scroll g).
Proof. unfold scroll. destruct (spawnDue _); by destruct g. Qed.

Lemma scroll_host (g : Game) :
  animationFrame (scroll g) = animationFrame g
  ∧ nextHandle (scroll g) = nextHandle g
  ∧ frameQueue (scroll g) = frameQueue g
  ∧ gameOver (scroll g) = gameOver g
  ∧ score (scroll g) = score g
  ∧ bestScore (scroll g) = bestScore g
  ∧ localStorage (scroll g) = localStorage g.
Proof. unfold scroll. destruct (spawnDue _); by destruct g. Qed.

(** ** The tick *)

Lemma update_ground (g : Game) :
  onGround (fall g) = true → update g = land (fall g).
Proof. unfold update. by intros ->. Qed.

Lemma update_air (g : Game) :
  onGround (fall g) = false →
  update g = collide (scroll (clampCeiling (fall g))).
Proof. unfold update. by intros ->. Qed.

Lemma clampCeiling_settings (g : Game) : sameSettings g (clampCeiling g).
Proof. unfold clampCeiling. destruct (Qltb _ _); by destruct g. Qed.



Lemma update_settings (g : Game) : sameSettings g (update g).
Proof.
  destruct (onGround (fall g)) eqn:E.
  - rewrite (update_ground _ E). by game_cases g.
  - rewrite (update_air _ E).
    eapply sameSettings_trans; [|apply collide_settings].
    eapply sameSettings_trans; [|apply scroll_settings].
    eapply sameSettings_trans; [|apply clampCeiling_settings].
    by destruct g.
Qed.

Lemma update_gameOver (g : Game) :
  gameOver g = true → gameOver (update g) = true.
Proof.
  intros Hover. destruct (onGround (fall g)) eqn:E.
  - rewrite (update_ground _ E). by game_cases g.
  - rewrite (update_air _ E). apply collide_gameOver.
    destruct (scroll_host (clampCeiling (fall g))) as (_ & _ & _ & -> & _).
    unfold clampCeiling. destruct (Qltb _ _); by destruct g.
Qed.

(** ** The frame callback and the three operations *)

Lemma animate_paused (g : Game) : gamePaused g = true → animate g = g.
Proof. unfold animate. by intros ->. Qed.

Lemma animate_running (g : Game) :
  gamePaused g = false →
  animate g =
    (if gameOver (update g) then update g
     else set_animationFrame (Some (nextHandle (update g)))
            (requestAnimationFrame (update g)).2).
Proof. unfold animate. intros ->. by destruct (gameOver (update g)). Qed.

Lemma animate_flags (g : Game) :
  gameStarted (animate g) = gameStarted g
  ∧ gamePaused (animate g) = gamePaused g
  ∧ (gameOver g = true → gameOver (animate g) = true).
Proof.
  destruct (gamePaused g) eqn:Hp.
  - by rewrite animate_paused.
  - rewrite (animate_running _ Hp).
    destruct (update_settings g) as (_ & _ & Hs & Hq).
    pose proof (update_gameOver g) as Ho.
    destruct (gameOver (update g)) eqn:E.
    + split_and!; [congruence..|done].
    + simpl. split_and!; [congruence..|].
      intros Hover. by rewrite Ho in E.
Qed.

Lemma toLowerCase_primary (key : string) :
  isPrimaryKey key = true →
  bool_decide (toLowerCase key = "p") = false
  ∧ bool_decide (toLowerCase key = "r") = false.
Proof.
  unfold isPrimaryKey. intros [E|E]%orb_true_iff;
    apply bool_decide_eq_true in E; by subst key.
Qed.

(** Whatever the key, a key press does what one of the three operations
    does, or nothing. *)
Lemma onKeydown_cases (key : string) (g : Game) :
  onKeydown key g = startGame g ∨ onKeydown key g = togglePause g
  ∨ onKeydown key g = flap g ∨ onKeydown key g = g.
Proof.
  unfold onKeydown. destruct (isPrimaryKey key) eqn:Hk.
  - destruct (toLowerCase_primary _ Hk) as [-> ->]. simpl.
    destruct (negb (gameStarted g) || gameOver g); [by left|].
    destruct (gamePaused g); [by right; left | by right; right; left].
  - destruct (bool_decide (toLowerCase key = "p")) eqn:Hp.
    + apply bool_decide_eq_true in Hp. rewrite Hp. simpl.
      destruct (gameStarted g && negb (gameOver g));
        [by right; left | by right; right; right].
    + simpl. destruct (bool_decide (toLowerCase key = "r") && gameOver g);
        [by left | by right; right; right].
Qed.

Lemma handleStartInput_cases (g : Game) :
  handleStartInput g = startGame g ∨ handleStartInput g = togglePause g
  ∨ handleStartInput g = flap g.
Proof.
  unfold handleStartInput.
  destruct (negb (gameStarted g) || gameOver g && negb (gamePaused g));
    [by left|].
  destruct (gamePaused g); [by right; left | by right; right].
Qed.

(** Every event comes down to one of six primitive moves. *)
Lemma handle_cases (e : Event) (g g1 : Game) :
  handle e g = Some g1 →
  g1 = startGame g ∨ g1 = togglePause g ∨ g1 = flap g ∨ g1 = g
  ∨ (∃ w, g1 = resizeCanvas w g)
  ∨ (∃ h, h ∈ frameQueue g
          ∧ g1 = animate (set_frameQueue (frameQueue g ∖ {[h]}) g)).
Proof.
  destruct e; simpl; intros H.
  - injection H as <-. by left.
  - injection H as <-. by right; left.
  - injection H as <-. by right; right; left.
  - unfold runFrame in H. case_bool_decide as Hin; [|done].
    injection H as <-. do 5 right. by exists h.
  - injection H as <-. destruct (handleStartInput_cases g) as [->| [->| ->]];
      [by left | by right; left | by right; right; left].
  - injection H as <-. destruct (onKeydown_cases key g) as [->| [->| [->| ->]]];
      [by left | by right; left | by right; right; left
      | by right; right; right; left].
  - injection H as <-. unfold onMainButton.
    destruct (negb (gameStarted g) || gameOver g); [by left | by right; left].
  - injection H as <-. do 4 right. left. by exists innerWidth.
Qed.

(** ** The three flags *)

Lemma flagsOk_animate (g : Game) :
  gameStarted g = true →
  (gamePaused g = true → gameOver g = false) →
  flagsOk (animate g).
Proof.
  intros Hs Hp. destruct (animate_flags g) as (Es & Ep & _). split.
  - rewrite Es, Hs. done.
  - rewrite Ep. intros Hpaused. rewrite (animate_paused _ Hpaused). auto.
Qed.

Lemma flagsOk_startGame (g : Game) : flagsOk (startGame g).
Proof. unfold startGame. by apply flagsOk_animate. Qed.

Lemma flagsOk_togglePause (g : Game) : flagsOk g → flagsOk (togglePause g).
Proof.
  intros Hok. unfold togglePause.
  destruct (gameStarted g) eqn:Hs; [|done].
  destruct (gameOver g) eqn:Ho; [done|]. simpl.
  destruct (gamePaused g) eqn:Hp.
  - by apply flagsOk_animate.
  - split; game_cases g; simpl in *; by try congruence.
Qed.

Lemma flagsOk_flap (g : Game) : flagsOk g → flagsOk (flap g).
Proof.
  unfold flap. destruct (negb (gameStarted g)); [done|].
  destruct (gameOver g); [done|]. by destruct g.
Qed.

Lemma flagsOk_runFrame (h : N) (g : Game) :
  h ∈ frameQueue g → flagsOk g →
  flagsOk (animate (set_frameQueue (frameQueue g ∖ {[h]}) g)).
Proof.
  intros Hin [Hns Hp]. apply flagsOk_animate.
  - destruct (gameStarted g) eqn:Hs; [by destruct g|].
    destruct Hns as (_ & _ & Hq); [done|]. rewrite Hq in Hin. set_solver.
  - by destruct g.
Qed.

Lemma flagsOk_mount (rnd : nat → Q) (innerWidth : Q) (ls : gmap string string) :
  flagsOk (onMount rnd innerWidth ls).
Proof. by split. Qed.

Lemma reachable_flagsOk (g : Game) : reachable g → flagsOk g.
Proof.
  induction 1 as [rnd w ls|g g1 e _ IH Hstep]; [apply flagsOk_mount|].
  apply handle_cases in Hstep
    as [->| [->| [->| [->| [[w ->]| (h & Hin & ->)]]]]].
  - apply flagsOk_startGame.
  - by apply flagsOk_togglePause.
  - by apply flagsOk_flap.
  - done.
  - by destruct g.
  - by apply flagsOk_runFrame.
Qed.

Lemma flagsOk_stateOf (g : Game) :
  flagsOk g → ∃ st, stateOf g = Some st.
Proof.
  intros [Hns Hp]. unfold stateOf.
  destruct (gameStarted g).
  - destruct (gamePaused g).
    + rewrite Hp by done. by exists Paused.
    + destruct (gameOver g); [by exists GameOver | by exists Running].
  - destruct Hns as (-> & -> & _); [done|]. by exists NotStarted.
Qed.

(** C10.  In every state a mounted component can reach, by calls of
    [startGame], [togglePause] and [flap], by ticks and by the page's input
    events in any order, [gamePaused] and [gameOver] are not both true, and
    the three flags read as one of [NotStarted], [Running], [Paused],
    [GameOver].  A tick is a pending frame callback running [animate], the
    only caller of [update]. *)
Theorem reachable_flags (g : Game) :
  reachable g →
  ¬ (gamePaused g = true ∧ gameOver g = true)
  ∧ (∃ st, stateOf g = Some st)
  ∧ (gameStarted g = false → gamePaused g = false ∧ gameOver g = false).
Proof.
  intros Hr. apply reachable_flagsOk in Hr as Hok. split_and!.
  - intros [Hp Ho]. destruct Hok as [_ H]. rewrite H in Ho; done.
  - by apply flagsOk_stateOf.
  - intros Hs. destruct Hok as [H _]. by destruct (H Hs) as (? & ? & _).
Qed.

(** ** Input routing *)

Lemma stateOf_flags (g : Game) (st : GameState) :
  stateOf g = Some st →
  match st with
  | NotStarted => gameStarted g = false ∧ gamePaused g = false ∧ gameOver g = false
  | Running => gameStarted g = true ∧ gamePaused g = false ∧ gameOver g = false
  | Paused => gameStarted g = true ∧ gamePaused g = true ∧ gameOver g = false
  | GameOver => gameStarted g = true ∧ gamePaused g = false ∧ gameOver g = true
  end.
Proof.
  unfold stateOf.
  destruct (gameStarted g), (gamePaused g), (gameOver g), st; done.
Qed.

Lemma onKeydown_primary (key : string) (g : Game) :
  isPrimaryKey key = true →
  onKeydown key g =
    (if negb (gameStarted g) || gameOver g then startGame g
     else if gamePaused g then togglePause g else flap g).
Proof.
  intros Hk. unfold onKeydown. rewrite Hk.
  by destruct (toLowerCase_primary _ Hk) as [-> ->].
Qed.

(** C9.  A pointer press ([onClick], [onTouchStart]) is
    [handleStartInput]; that function starts or restarts the game when it
    is not started or is over and not paused, otherwise resumes when it is
    paused, otherwise flaps: so [NotStarted] and [GameOver] restart,
    [Paused] resumes, [Running] flaps.  A restart is a first tick run on a
    fresh [Running] game with score 0, the bird at mid height and one pipe.
    In every reachable state the Space and ArrowUp keys do the same as a
    pointer press. *)
Theorem primary_input_routing (g : Game) :
  onClick g = handleStartInput g
  ∧ onTouchStart g = handleStartInput g
  ∧ (gameStarted g = false ∨ (gameOver g = true ∧ gamePaused g = false) →
       handleStartInput g = startGame g)
  ∧ (¬ (gameStarted g = false ∨ (gameOver g = true ∧ gamePaused g = false)) →
       gamePaused g = true → handleStartInput g = togglePause g)
  ∧ (¬ (gameStarted g = false ∨ (gameOver g = true ∧ gamePaused g = false)) →
       gamePaused g = false → handleStartInput g = flap g)
  ∧ (stateOf g = Some NotStarted → handleStartInput g = startGame g)
  ∧ (stateOf g = Some GameOver → handleStartInput g = startGame g)
  ∧ (stateOf g = Some Paused → handleStartInput g = togglePause g)
  ∧ (stateOf g = Some Running → handleStartInput g = flap g)
  ∧ (startGame g = animate (freshRun g)
     ∧ stateOf (freshRun g) = Some Running
     ∧ score (freshRun g) = 0%Z
     ∧ bird (freshRun g) = Bird.mk BIRD_X (baseHeight g / 2) 0 BIRD_SIZE BIRD_SIZE
     ∧ length (pipes (freshRun g)) = 1%nat)
  ∧ (reachable g → ∀ key, key = " "%string ∨ key = "ArrowUp"%string →
       onKeydown key g = handleStartInput g).
Proof.
  split_and!.
  10-14: done.
  1-2: done.
  - unfold handleStartInput. intros [->| [-> ->]]; [done|].
    by rewrite orb_true_r.
  - intros Hn Hp. unfold handleStartInput. rewrite Hp.
    destruct (gameStarted g); [|by destruct Hn; left].
    by rewrite andb_false_r.
  - intros Hn Hp. unfold handleStartInput. rewrite Hp.
    destruct (gameStarted g); [|by destruct Hn; left].
    destruct (gameOver g); [by destruct Hn; right|done].
  - intros (Hs & Hp & Ho)%stateOf_flags. unfold handleStartInput. by rewrite Hs.
  - intros (Hs & Hp & Ho)%stateOf_flags. unfold handleStartInput.
    by rewrite Hs, Hp, Ho.
  - intros (Hs & Hp & Ho)%stateOf_flags. unfold handleStartInput.
    by rewrite Hs, Hp, Ho.
  - intros (Hs & Hp & Ho)%stateOf_flags. unfold handleStartInput.
    by rewrite Hs, Hp, Ho.
  - intros Hr key Hkey.
    assert (isPrimaryKey key = true) as Hk by (by destruct Hkey as [->| ->]).
    rewrite (onKeydown_primary _ _ Hk). unfold handleStartInput.
    destruct (reachable_flagsOk _ Hr) as [_ Hpo].
    destruct (gameStarted g); cbn [negb orb andb]; [|reflexivity].
    destruct (gamePaused g).
    + rewrite Hpo by reflexivity. reflexivity.
    + rewrite andb_true_r. reflexivity.
Qed.

(** ** Flap *)

Lemma onKeydown_paused (key : string) (g : Game) :
  gamePaused g = true →
  onKeydown key g = startGame g ∨ onKeydown key g = togglePause g
  ∨ onKeydown key g = g.
Proof.
  intros Hp. unfold onKeydown. destruct (isPrimaryKey key) eqn:Hk.
  - destruct (toLowerCase_primary _ Hk) as [-> ->]. simpl. rewrite Hp.
    destruct (negb (gameStarted g) || gameOver g); [by left | by right; left].
  - destruct (bool_decide (toLowerCase key = "p")) eqn:E.
    + apply bool_decide_eq_true in E. rewrite E. simpl.
      destruct (gameStarted g && negb (gameOver g));
        [by right; left | by right; right].
    + simpl. destruct (bool_decide (toLowerCase key = "r") && gameOver g);
        [by left | by right; right].
Qed.

(** C6 (as amended).  [flap] sets [bird.vy] to [JUMP = -8.5], whatever it
    was, and changes nothing else, whenever the game is started and not
    over: that is in [Running] and also in [Paused], the pause flag not
    being read.  In [NotStarted] and [GameOver] it returns the state as it
    is.  The input routers never call it on a paused game: a pointer
    press, a key or the button then resumes, restarts or does nothing. *)
Theorem flap_effect (g : Game) :
  (gameStarted g = true → gameOver g = false →
     flap g = set_bird (Bird.set_vy JUMP (bird g)) g
     ∧ Bird.vy (bird (flap g)) = JUMP)
  ∧ (stateOf g = Some Running →
       flap g = set_bird (Bird.set_vy JUMP (bird g)) g)
  ∧ (stateOf g = Some Paused →
       flap g = set_bird (Bird.set_vy JUMP (bird g)) g)
  ∧ (gameStarted g = false ∨ gameOver g = true → flap g = g)
  ∧ (stateOf g = Some NotStarted ∨ stateOf g = Some GameOver → flap g = g)
  ∧ (gamePaused g = true →
       (handleStartInput g = startGame g ∨ handleStartInput g = togglePause g)
       ∧ (onMainButton g = startGame g ∨ onMainButton g = togglePause g)
       ∧ ∀ key, onKeydown key g = startGame g ∨ onKeydown key g = togglePause g
                ∨ onKeydown key g = g).
Proof.
  split_and!.
  - intros Hs Ho. unfold flap. by rewrite Hs, Ho.
  - intros (Hs & _ & Ho)%stateOf_flags. unfold flap. by rewrite Hs, Ho.
  - intros (Hs & _ & Ho)%stateOf_flags. unfold flap. by rewrite Hs, Ho.
  - unfold flap. intros [->| ->]; [done|]. by destruct (negb (gameStarted g)).
  - unfold flap.
    intros [(Hs & _ & Ho)%stateOf_flags|(Hs & _ & Ho)%stateOf_flags];
      by rewrite Hs, Ho.
  - intros Hp. split_and!.
    + unfold handleStartInput. rewrite Hp.
      destruct (negb (gameStarted g) || _); [by left | by right].
    + unfold onMainButton.
      destruct (negb (gameStarted g) || _); [by left | by right].
    + intros key. by apply onKeydown_paused.
Qed.

(** ** Pause and resume *)

Lemma frozen_refl (g : Game) : stateOf g = Some Paused → frozen g g.
Proof. intros H. unfold frozen. by split_and!. Qed.

Lemma frozen_trans (g q r : Game) : frozen g q → frozen q r → frozen g r.
Proof. unfold frozen. intuition congruence. Qed.

Lemma togglePause_paused (g : Game) :
  stateOf g = Some Paused → togglePause g = animate (set_gamePaused false g).
Proof.
  intros (Hs & Hp & Ho)%stateOf_flags. unfold togglePause.
  by rewrite Hs, Hp, Ho.
Qed.

Lemma togglePause_running (g : Game) :
  stateOf g = Some Running →
  togglePause g = cancelAnimationFrame (animationFrame g) (set_gamePaused true g).
Proof.
  intros (Hs & Hp & Ho)%stateOf_flags. unfold togglePause.
  by rewrite Hs, Hp, Ho.
Qed.

(** On a paused game every event of the page either is the resume or
    leaves the world as it is. *)
Lemma paused_page_event (e : Event) (g g1 : Game) :
  stateOf g = Some Paused → isPageEvent e = true → handle e g = Some g1 →
  g1 = togglePause g ∨ frozen g g1.
Proof.
  intros Hst Hpage Hstep. pose proof (stateOf_flags _ _ Hst) as (Hs & Hp & Ho).
  destruct e; try done; simpl in Hstep.
  - unfold runFrame in Hstep. case_bool_decide; [|done].
    injection Hstep as <-. right. rewrite animate_paused by (by destruct g).
    unfold frozen, stateOf in *. by destruct g.
  - injection Hstep as <-. left. unfold handleStartInput.
    by rewrite Hs, Hp, Ho.
  - injection Hstep as <-. unfold onKeydown.
    destruct (isPrimaryKey key) eqn:Hk.
    + destruct (toLowerCase_primary _ Hk) as [-> ->].
      left. by rewrite Hs, Hp, Ho.
    + destruct (bool_decide (toLowerCase key = "p")) eqn:E.
      * apply bool_decide_eq_true in E. rewrite E, Hs, Ho.
        cbn [andb negb]. left.
        replace (bool_decide ("p"%string = "r"%string)) with false by done.
        reflexivity.
      * cbn [andb]. rewrite Ho, andb_false_r. right. by apply frozen_refl.
  - injection Hstep as <-. left. unfold onMainButton. by rewrite Hs, Ho.
  - injection Hstep as <-. right. unfold frozen, stateOf in *. by destruct g.
Qed.

(** A run of page events from a paused game: the world stays as it is up
    to the first event that is the resume, if there is one. *)
Lemma paused_run (es : list Event) (p q : Game) :
  stateOf p = Some Paused →
  Forall (λ e, isPageEvent e = true) es →
  run es p = Some q →
  frozen p q
  ∨ ∃ es1 e es2 q1,
      es = es1 ++ e :: es2 ∧ run es1 p = Some q1 ∧ frozen p q1
      ∧ handle e q1 = Some (togglePause q1)
      ∧ run es2 (togglePause q1) = Some q.
Proof.
  revert p. induction es as [|e es IH]; intros p Hst Hall Hrun.
  - injection Hrun as <-. left. by apply frozen_refl.
  - apply Forall_cons in Hall as [He Hall]. simpl in Hrun.
    destruct (handle e p) as [p1|] eqn:Hstep; [|done].
    destruct (paused_page_event _ _ _ Hst He Hstep) as [->|Hfr].
    + right. exists [], e, es, p. split_and!; try done; by apply frozen_refl.
    + destruct (IH p1) as [Hq|(es1 & e1 & es2 & q1 & -> & Hr1 & Hf1 & Hh & Hr2)];
        [by destruct Hfr | done | done | |].
      * left. by eapply frozen_trans.
      * right. exists (e :: es1), e1, es2, q1. split_and!; try done.
        -- simpl. by rewrite Hstep.
        -- by eapply frozen_trans.
Qed.

(** C8 (as amended).  On a running game [togglePause] sets the pause flag
    and cancels the pending frame, and that is all: bird, pipes, score,
    best score and storage are as before and the game is [Paused].  A
    frame callback that fires on a paused game changes nothing, and
    whatever events the page delivers, the world stays frozen up to the
    next call of [togglePause].  That call clears the flag and runs the
    frame callback at once: one tick of [update] computed from the frozen
    values, followed by a new frame request unless that tick ended the
    game. *)
Theorem togglePause_freezes_world (g : Game) :
  stateOf g = Some Running →
  let p := togglePause g in
  p = cancelAnimationFrame (animationFrame g) (set_gamePaused true g)
  ∧ frozen g p
  ∧ (∀ h, animationFrame g = Some h → h ∉ frameQueue p)
  ∧ (∀ q, gamePaused q = true → animate q = q)
  ∧ (∀ es q, Forall (λ e, isPageEvent e = true) es → run es p = Some q →
       frozen g q
       ∨ ∃ es1 e es2 q1,
           es = es1 ++ e :: es2 ∧ run es1 p = Some q1 ∧ frozen g q1
           ∧ handle e q1 = Some (togglePause q1)
           ∧ run es2 (togglePause q1) = Some q)
  ∧ (∀ q, frozen g q →
       let u := update (set_gamePaused false q) in
       bird (set_gamePaused false q) = bird g
       ∧ pipes (set_gamePaused false q) = pipes g
       ∧ score (set_gamePaused false q) = score g
       ∧ togglePause q = animate (set_gamePaused false q)
       ∧ togglePause q =
           (if gameOver u then u
            else set_animationFrame (Some (nextHandle u))
                   (requestAnimationFrame u).2)
       ∧ bird (togglePause q) = bird u
       ∧ pipes (togglePause q) = pipes u
       ∧ score (togglePause q) = score u).
Proof.
  intros Hrun p.
  assert (p = cancelAnimationFrame (animationFrame g) (set_gamePaused true g))
    as Hp by (by apply togglePause_running).
  assert (frozen g p) as Hfr.
  { rewrite Hp. apply stateOf_flags in Hrun as (Hs & Hq & Ho).
    unfold frozen, stateOf. game_cases g; simpl in *; by subst. }
  split_and!; [done|done| | | |].
  - intros h Hh. rewrite Hp, Hh. simpl.
    apply not_elem_of_difference. right. by apply elem_of_singleton.
  - apply animate_paused.
  - intros es q Hall Hr.
    destruct (paused_run es p q) as [Hq|(es1 & e & es2 & q1 & ? & ? & ? & ? & ?)];
      [by destruct Hfr | done | done | |].
    + left. by eapply frozen_trans.
    + right. exists es1, e, es2, q1. split_and!; try done.
      by eapply frozen_trans.
  - intros q (Hst & Hb & Hps & Hsc & _) u.
    assert (togglePause q = animate (set_gamePaused false q)) as E
      by (by apply togglePause_paused).
    assert (animate (set_gamePaused false q) =
              (if gameOver u then u
               else set_animationFrame (Some (nextHandle u))
                      (requestAnimationFrame u).2)) as E2
      by (by apply animate_running).
    split_and!; [by destruct q..|done|congruence| | |];
      rewrite E, E2; by destruct (gameOver u).
Qed.

(** ** Spawning *)

Lemma addPipe_pipes (g : Game) :
  pipes (addPipe g) = pipes g ++ [newPipe (baseWidth g) (random g (randomCalls g))].
Proof. by destruct g. Qed.

Lemma scroll_pipes (g : Game) :
  let ps := cull (map movePipe (pipes g)) in
  pipes (scroll g) =
    ps ++ (if spawnDue (set_pipes ps g)
           then [newPipe (baseWidth g) (random g (randomCalls g))] else []).
Proof.
  intros ps. unfold scroll.
  replace (set_pipes (cull (pipes (set_pipes (map movePipe (pipes g)) g)))
             (set_pipes (map movePipe (pipes g)) g))
    with (set_pipes ps g) by (by destruct g).
  destruct (spawnDue (set_pipes ps g)).
  - rewrite addPipe_pipes. by destruct g.
  - rewrite app_nil_r. by destruct g.
Qed.

Lemma collideAndScore_geometry (ps : list Pipe.t) (g : Game) :
  map Pipe.geometry (collideAndScore ps g).1 = map Pipe.geometry ps.
Proof.
  revert g. induction ps as [|pipe rest IH]; intros g; simpl; [done|].
  destruct (hitsPipe pipe g); [done|].
  destruct (negb (Pipe.isPassed pipe) && _).
  - unfold scorePipe. destruct (gt_num _ _).
    + match goal with |- context [collideAndScore rest ?g1] =>
        specialize (IH g1); destruct (collideAndScore rest g1) end.
      simpl in *. by rewrite IH.
    + match goal with |- context [collideAndScore rest ?g1] =>
        specialize (IH g1); destruct (collideAndScore rest g1) end.
      simpl in *. by rewrite IH.
  - specialize (IH g). destruct (collideAndScore rest g).
    simpl in *. by rewrite IH.
Qed.

Lemma collide_pipes (g : Game) :
  pipes (collide g) = (collideAndScore (pipes g) g).1.
Proof. unfold collide. by destruct (collideAndScore (pipes g) g). Qed.


Lemma newPipe_height_range (w r : Q) :
  0 <= r < 1 →
  ∃ z : Z, Pipe.height (newPipe w r) == inject_Z z ∧ (40 <= z < 260)%Z.
Proof.
  intros [Hr0 Hr1].
  exists (Qfloor (r * (MAX_PIPE_HEIGHT - MIN_PIPE_HEIGHT)) + 40)%Z. split.
  - simpl. rewrite inject_Z_plus. reflexivity.
  - assert (0 <= Qfloor (r * (MAX_PIPE_HEIGHT - MIN_PIPE_HEIGHT)) < 220)%Z; [|lia].
    split.
    + change 0%Z with (Qfloor 0). apply Qfloor_resp_le.
      unfold MAX_PIPE_HEIGHT, MIN_PIPE_HEIGHT. lra.
    + rewrite Zlt_Qlt. eapply Qle_lt_trans; [apply Qfloor_le|].
      unfold MAX_PIPE_HEIGHT, MIN_PIPE_HEIGHT. change (inject_Z 220) with 220. lra.
Qed.

Lemma clampCeiling_fall_rest (g : Game) :
  let w := clampCeiling (fall g) in
  pipes w = pipes g ∧ baseWidth w = baseWidth g
  ∧ randomCalls w = randomCalls g ∧ score w = score g
  ∧ bestScore w = bestScore g ∧ localStorage w = localStorage g
  ∧ random w = random g.
Proof. simpl. unfold clampCeiling, fall. destruct (Qltb _ _); by destruct g. Qed.

Lemma update_geometry (g : Game) :
  onGround (fall g) = false →
  let ps := cull (map movePipe (pipes g)) in
  map Pipe.geometry (pipes (update g)) =
    map Pipe.geometry
      (ps ++ (if spawnDue (set_pipes ps g)
              then [newPipe (baseWidth g) (random g (randomCalls g))] else [])).
Proof.
  intros E ps. rewrite (update_air _ E), collide_pipes, collideAndScore_geometry.
  rewrite scroll_pipes.
  destruct (clampCeiling_fall_rest g) as (-> & -> & -> & _ & _ & _ & ->).
  fold ps. f_equal. f_equal.
  unfold spawnDue. simpl.
  by destruct (clampCeiling_fall_rest g) as (_ & -> & _).
Qed.


(** ** Scoring *)



Lemma scorePipe_spec (pipe : Pipe.t) (g : Game) :
  (scorePipe pipe g).1 = Pipe.set_passed true pipe
  ∧ bird (scorePipe pipe g).2 = bird g
  ∧ baseHeight (scorePipe pipe g).2 = baseHeight g
  ∧ score (scorePipe pipe g).2 = (score g + 1)%Z.
Proof. unfold scorePipe. destruct (gt_num _ _); by destruct g. Qed.



Lemma cull_shape (ps : list Pipe.t) :
  ∃ k, (k <= 1)%nat ∧ cull ps = drop k ps.
Proof.
  destruct ps as [|p rest]; [exists 0%nat; split; [lia|done]|]. simpl.
  destruct (Qltb _ _); [exists 1%nat | exists 0%nat]; (split; [lia|done]).
Qed.







(** ** Reading back what was written *)

Lemma digit_cases (d : N) :
  (d < 10)%N →
  (d = 0 ∨ d = 1 ∨ d = 2 ∨ d = 3 ∨ d = 4 ∨ d = 5 ∨ d = 6 ∨ d = 7 ∨ d = 8
   ∨ d = 9)%N.
Proof. lia. Qed.

Lemma digitValue_pretty_N_char (d : N) :
  (d < 10)%N → digitValue (pretty_N_char d) = Some (Z.of_N d).
Proof. intros H. destruct (digit_cases d H) as [->|H1]; [done|].
  repeat (destruct H1 as [->|H1]; [done|]). by subst. Qed.

(** Parsing the digits written for [x] in front of [s] is parsing [s] with
    [x] read so far. *)
Lemma parseDigits_pretty_N_go (x : N) (s : string) :
  (0 < x)%N →
  parseDigits 10 (pretty_N_go x s) None = parseDigits 10 s (Some (Z.of_N x)).
Proof.
  revert s. induction (N.lt_wf_0 x) as [x _ IH]; intros s Hx.
  rewrite pretty_N_go_step by done.
  pose proof (N.mod_lt x 10 ltac:(lia)) as Hd.
  pose proof (N.div_mod x 10 ltac:(lia)) as Hdm.
  destruct (decide (x `div` 10 = 0)%N) as [E|E].
  - rewrite E, pretty_N_go_0. cbn [parseDigits].
    rewrite digitValue_pretty_N_char by done.
    replace (Z.of_N (x `mod` 10) <? 10)%Z with true by (symmetry; apply Z.ltb_lt; lia).
    f_equal. f_equal. simpl. lia.
  - rewrite IH; [|apply N.div_lt; lia|by apply N.neq_0_lt_0]. cbn [parseDigits].
    rewrite digitValue_pretty_N_char by done.
    replace (Z.of_N (x `mod` 10) <? 10)%Z with true by (symmetry; apply Z.ltb_lt; lia).
    f_equal. f_equal. simpl. lia.
Qed.

Lemma pretty_N_go_digitsAhead (x : N) (s : string) :
  (0 < x)%N → digitsAhead s →
  ∃ d r, pretty_N_go x s = String (pretty_N_char d) r ∧ (d < 10)%N
         ∧ digitsAhead r.
Proof.
  revert s. induction (N.lt_wf_0 x) as [x _ IH]; intros s Hx Hs.
  rewrite pretty_N_go_step by done.
  pose proof (N.mod_lt x 10 ltac:(lia)) as Hd.
  destruct (decide (x `div` 10 = 0)%N) as [E|E].
  - rewrite E, pretty_N_go_0. by exists (x `mod` 10)%N, s.
  - apply IH; [apply N.div_lt; lia|by apply N.neq_0_lt_0|].
    right. by exists (x `mod` 10)%N, s.
Qed.

(** In front of a decimal numeral nothing is trimmed and no sign or radix
    prefix is found. *)
Lemma parseInt_numeral (d : N) (r : string) :
  (d < 10)%N → digitsAhead r →
  trimStart (String (pretty_N_char d) r) = String (pretty_N_char d) r
  ∧ stripSign (String (pretty_N_char d) r) = (1%Z, String (pretty_N_char d) r)
  ∧ stripPrefix (String (pretty_N_char d) r) = (10%Z, String (pretty_N_char d) r).
Proof.
  intros Hd Hr. destruct (digit_cases d Hd) as [->|H1].
  - split_and!; [done..|]. destruct Hr as [->|(d1 & r1 & -> & Hd1)]; [done|].
    destruct (digit_cases d1 Hd1) as [->|H1]; [done|].
    repeat (destruct H1 as [->|H1]; [done|]). by subst.
  - repeat (destruct H1 as [->|H1]; [done|]). by subst.
Qed.

Lemma parseInt_pretty_N_go (x : N) :
  (0 < x)%N →
  parseInt (pretty_N_go x EmptyString) = Int (Z.of_N x)
  ∧ parseInt (String "-" (pretty_N_go x EmptyString)) = Int (- Z.of_N x).
Proof.
  intros Hx. pose proof (parseDigits_pretty_N_go x EmptyString Hx) as Hparse.
  destruct (pretty_N_go_digitsAhead x EmptyString Hx) as (d & r & E & Hd & Hr);
    [by left|].
  destruct (parseInt_numeral d r Hd Hr) as (Ht & Hs & Hp).
  rewrite E in *. unfold parseInt. split.
  - rewrite Ht, Hs, Hp, Hparse. simpl. f_equal. lia.
  - change (trimStart (String "-" (String (pretty_N_char d) r)))
      with (String "-" (String (pretty_N_char d) r)).
    change (stripSign (String "-" (String (pretty_N_char d) r)))
      with ((-1)%Z, String (pretty_N_char d) r).
    cbv beta iota. rewrite Hp, Hparse. simpl. f_equal.
Qed.

(** [parseInt] reads back every integer from its decimal form. *)
Lemma parseInt_pretty (z : Z) : parseInt (pretty z) = Int z.
Proof.
  destruct z as [|p|p]; [done|..].
  - change (pretty (Z.pos p)) with (pretty_N_go (N.pos p) EmptyString).
    by destruct (parseInt_pretty_N_go (N.pos p)) as [-> _].
  - change (pretty (Z.neg p)) with (String "-" (pretty_N_go (N.pos p) EmptyString)).
    by destruct (parseInt_pretty_N_go (N.pos p)) as [_ ->].
Qed.

Lemma loadBestScore_written (ls : gmap string string) (z : Z) :
  loadBestScore (<[BEST_KEY := pretty z]> ls) = Int z.
Proof.
  unfold loadBestScore. rewrite lookup_insert_eq.
  pose proof (parseInt_pretty z) as H.
  destruct (pretty z); [done|exact H].
Qed.

(** ** Best score *)

Lemma best_le_refl (a : num) : best_le a a.
Proof. by left. Qed.

Lemma best_le_trans (a b c : num) : best_le a b → best_le b c → best_le a c.
Proof.
  intros [->|(x & y & -> & -> & Hxy)] [<-|(y1 & z & E & -> & Hyz)].
  - by left.
  - right. eauto.
  - right. eauto.
  - injection E as <-. right. exists x, z. split_and!; [done..|lia].
Qed.

Lemma bestFrom_same (g g1 : Game) :
  score g1 = score g → bestScore g1 = bestScore g →
  localStorage g1 = localStorage g → bestFrom (score g) g g1.
Proof. intros Hs Hb Hl. unfold bestFrom. by rewrite Hs, Z.ltb_irrefl. Qed.

Lemma bestFrom_best_le (s0 : Z) (g g1 : Game) :
  bestFrom s0 g g1 → best_le (bestScore g) (bestScore g1).
Proof.
  unfold bestFrom. destruct ((s0 <? score g1)%Z && _) eqn:E.
  - intros [-> _]. apply andb_true_iff in E as [_ E].
    destruct (bestScore g) as [|b]; [done|]. simpl in E.
    right. exists b, (score g1). split_and!; [done..|lia].
  - intros [-> _]. by left.
Qed.

(** One scoring step followed by a stretch that satisfies [bestFrom]. *)
Lemma bestFrom_after_scorePipe (pipe : Pipe.t) (g g2 : Game) :
  let g1 := (scorePipe pipe g).2 in
  (score g1 <= score g2)%Z → bestFrom (score g1) g1 g2 →
  bestFrom (score g) g g2.
Proof.
  unfold scorePipe, bestFrom.
  destruct g as [? ? ? ? ? ? sc best ? ? ls ? ? ? ?]. simpl.
  destruct best as [|b]; simpl.
  - rewrite !andb_false_r. done.
  - destruct (Z.ltb_spec b (sc + 1)); simpl.
    + intros Hle. rewrite andb_diag.
      replace ((sc <? score g2)%Z && (b <? score g2)%Z) with true
        by (symmetry; apply andb_true_iff; split; apply Z.ltb_lt; lia).
      destruct (Z.ltb_spec (sc + 1) (score g2)).
      * intros [-> ->]. by rewrite insert_insert_eq.
      * assert (score g2 = sc + 1)%Z as -> by lia. by intros [-> ->].
    + intros Hle.
      destruct (Z.ltb_spec b (score g2)).
      * rewrite !andb_true_r.
        replace (sc <? score g2)%Z with true by (symmetry; apply Z.ltb_lt; lia).
        replace (sc + 1 <? score g2)%Z with true by (symmetry; apply Z.ltb_lt; lia).
        done.
      * by rewrite !andb_false_r.
Qed.

Lemma collideAndScore_best (ps : list Pipe.t) (g : Game) :
  (score g <= score (collideAndScore ps g).2)%Z
  ∧ bestFrom (score g) g (collideAndScore ps g).2.
Proof.
  revert g. induction ps as [|pipe rest IH]; intros g.
  - split; [done|]. by apply bestFrom_same.
  - cbn [collideAndScore]. destruct (hitsPipe pipe g).
    + split; [by game_cases g|]. apply bestFrom_same; by game_cases g.
    + destruct (negb (Pipe.isPassed pipe) && _).
      * pose proof (bestFrom_after_scorePipe pipe g) as Hcomp.
        destruct (scorePipe_spec pipe g) as (_ & _ & _ & Hs).
        destruct (scorePipe pipe g) as [p1 g1]. simpl in Hcomp, Hs.
        destruct (IH g1) as [Hle Hbest].
        destruct (collideAndScore rest g1) as [rest1 g2]. simpl in *.
        split; [lia|]. by apply Hcomp.
      * destruct (IH g) as [Hle Hbest].
        by destruct (collideAndScore rest g) as [rest1 g2].
Qed.

Lemma bestFrom_ext (s0 : Z) (g g1 h h1 : Game) :
  bestScore h = bestScore g → localStorage h = localStorage g →
  score h1 = score g1 → bestScore h1 = bestScore g1 →
  localStorage h1 = localStorage g1 →
  bestFrom s0 g g1 → bestFrom s0 h h1.
Proof. unfold bestFrom. by intros -> -> -> -> ->. Qed.

Lemma update_best (g : Game) :
  (score g <= score (update g))%Z ∧ bestFrom (score g) g (update g).
Proof.
  destruct (onGround (fall g)) eqn:E.
  - rewrite (update_ground _ E).
    split; [by game_cases g|]. apply bestFrom_same; by game_cases g.
  - rewrite (update_air _ E). set (w := scroll (clampCeiling (fall g))).
    assert (score w = score g ∧ bestScore w = bestScore g
            ∧ localStorage w = localStorage g) as (Hs & Hb & Hl).
    { subst w. destruct (scroll_host (clampCeiling (fall g)))
        as (_ & _ & _ & _ & -> & -> & ->).
      by destruct (clampCeiling_fall_rest g) as (_ & _ & _ & -> & -> & -> & _). }
    destruct (collideAndScore_best (pipes w) w) as [Hle Hbest].
    unfold collide. destruct (collideAndScore (pipes w) w) as [ps1 g1].
    simpl in *. rewrite <- Hs. split; [by destruct g1|].
    eapply bestFrom_ext; [..|exact Hbest]; by try destruct g1.
Qed.

Lemma animate_best (g : Game) :
  (score g <= score (animate g))%Z ∧ bestFrom (score g) g (animate g).
Proof.
  destruct (gamePaused g) eqn:Hp.
  - rewrite animate_paused by done. split; [done|]. by apply bestFrom_same.
  - rewrite (animate_running _ Hp). destruct (update_best g) as [Hle Hbest].
    destruct (gameOver (update g)); [done|].
    split; [by destruct (update g)|].
    eapply bestFrom_ext; [..|exact Hbest]; by try destruct (update g).
Qed.

Lemma freshRun_best (g : Game) :
  score (freshRun g) = 0%Z ∧ bestScore (freshRun g) = bestScore g
  ∧ localStorage (freshRun g) = localStorage g.
Proof. by destruct g. Qed.

Lemma startGame_best (g : Game) :
  (0 <= score (startGame g))%Z ∧ bestFrom 0 g (startGame g).
Proof.
  change (startGame g) with (animate (freshRun g)).
  destruct (freshRun_best g) as (Hs & Hb & Hl).
  destruct (animate_best (freshRun g)) as [Hle Hbest]. rewrite Hs in *.
  split; [done|]. by eapply bestFrom_ext; [..|exact Hbest].
Qed.

Lemma togglePause_best (g : Game) :
  (score g <= score (togglePause g))%Z ∧ bestFrom (score g) g (togglePause g).
Proof.
  unfold togglePause. destruct (negb (gameStarted g) || gameOver g).
  - split; [done|]. by apply bestFrom_same.
  - destruct (gamePaused g).
    + destruct (animate_best (set_gamePaused false g)) as [Hle Hbest].
      split; [by destruct g|].
      eapply bestFrom_ext; [..|exact Hbest]; by try destruct g.
    + split; [by game_cases g|]. apply bestFrom_same; by game_cases g.
Qed.

(** For every event: the best score and its stored copy follow the score
    counted from where the event found it, or from 0 after a restart. *)
Lemma handle_best (e : Event) (g g1 : Game) :
  handle e g = Some g1 →
  ∃ s0 : Z, (s0 = score g ∨ s0 = 0%Z) ∧ (s0 <= score g1)%Z ∧ bestFrom s0 g g1.
Proof.
  intros Hstep. apply handle_cases in Hstep
    as [->| [->| [->| [->| [[w ->]| (h & Hin & ->)]]]]].
  - exists 0%Z. destruct (startGame_best g). by split_and!; [right|..].
  - exists (score g). destruct (togglePause_best g). by split_and!; [left|..].
  - exists (score g). split_and!; [by left|..]; unfold flap;
      destruct (negb (gameStarted g)); try done; try (by apply bestFrom_same);
      destruct (gameOver g); try done; try (by apply bestFrom_same);
      by try (apply bestFrom_same); destruct g.
  - exists (score g). split_and!; [by left|done|by apply bestFrom_same].
  - exists (score g). split_and!; [by left|by destruct g|].
    apply bestFrom_same; by destruct g.
  - exists (score g).
    destruct (animate_best (set_frameQueue (frameQueue g ∖ {[h]}) g))
      as [Hle Hbest].
    split_and!; [by left|by destruct g|].
    eapply bestFrom_ext; [..|exact Hbest]; by try destruct g.
Qed.

Lemma reachable_startGame (g : Game) : reachable g → reachable (startGame g).
Proof. intros H. apply (reachable_step g _ CallStartGame H). reflexivity. Qed.

Lemma reachable_togglePause (g : Game) : reachable g → reachable (togglePause g).
Proof. intros H. apply (reachable_step g _ CallTogglePause H). reflexivity. Qed.

Lemma handle_best_le (e : Event) (g g1 : Game) :
  handle e g = Some g1 → best_le (bestScore g) (bestScore g1).
Proof.
  intros (s0 & _ & _ & Hbest)%handle_best. by eapply bestFrom_best_le.
Qed.

Lemma run_best_le (es : list Event) (g g1 : Game) :
  run es g = Some g1 → best_le (bestScore g) (bestScore g1).
Proof.
  revert g. induction es as [|e es IH]; intros g Hrun; simpl in Hrun.
  - injection Hrun as <-. apply best_le_refl.
  - destruct (handle e g) as [g2|] eqn:E; [|done].
    eapply best_le_trans; [by eapply handle_best_le|by apply IH].
Qed.

Lemma run_reachable (es : list Event) (g g1 : Game) :
  reachable g → run es g = Some g1 → reachable g1.
Proof.
  revert g. induction es as [|e es IH]; intros g Hr Hrun; simpl in Hrun.
  - by injection Hrun as <-.
  - destruct (handle e g) as [g2|] eqn:E; [|done].
    apply (IH g2); [|done]. by eapply reachable_step.
Qed.

(** C4.  No event lowers the best score: after any event, and so after
    any run of events (ticks, pauses, flaps, restarts), it is what it was
    or a larger integer.  An event changes it only by setting it to the
    current score, which is then above the old best, and writes exactly
    that value under the key ['flappybird_best'], leaving the rest of
    the storage alone, so that loading from the storage gives the new
    best score back; an event that leaves it unchanged writes nothing.
    A restart puts the score back to 0 and leaves the best score as it
    is.  When the best score is a non-negative integer that the score does
    not exceed, every event leaves it at the larger of its old value and
    the new score: so from a load that gave such a value the score never
    exceeds the best score. *)
Theorem bestScore_monotone :
  (∀ e g g1, handle e g = Some g1 →
     best_le (bestScore g) (bestScore g1)
     ∧ ((bestScore g1 = bestScore g ∧ localStorage g1 = localStorage g)
        ∨ (gt_num (score g1) (bestScore g) = true
           ∧ bestScore g1 = Int (score g1)
           ∧ localStorage g1
             = <[BEST_KEY := pretty (score g1)]> (localStorage g)
           ∧ localStorage g1 !! BEST_KEY = Some (pretty (score g1))
           ∧ loadBestScore (localStorage g1) = bestScore g1)))
  ∧ (∀ es g g1, run es g = Some g1 → best_le (bestScore g) (bestScore g1))
  ∧ (∀ g, score (freshRun g) = 0%Z ∧ bestScore (freshRun g) = bestScore g
          ∧ best_le (bestScore g) (bestScore (startGame g)))
  ∧ (∀ e g g1 b, handle e g = Some g1 →
       bestScore g = Int b → (0 <= b)%Z → (score g <= b)%Z →
       bestScore g1 = Int (Z.max b (score g1)))
  ∧ (∀ es rnd innerWidth ls g1 b,
       loadBestScore ls = Int b → (0 <= b)%Z →
       run es (onMount rnd innerWidth ls) = Some g1 →
       ∃ b1, bestScore g1 = Int b1 ∧ (b <= b1)%Z ∧ (score g1 <= b1)%Z).
Proof.
  assert (∀ e g g1 b, handle e g = Some g1 →
            bestScore g = Int b → (0 <= b)%Z → (score g <= b)%Z →
            bestScore g1 = Int (Z.max b (score g1))) as Hmax.
  { intros e g g1 b (s0 & Hs0 & Hle & Hbest)%handle_best Hb Hb0 Hsb.
    unfold bestFrom in Hbest. rewrite Hb in Hbest. simpl in Hbest.
    destruct (Z.ltb_spec b (score g1)).
    - replace (s0 <? score g1)%Z with true in Hbest
        by (symmetry; apply Z.ltb_lt; destruct Hs0; lia).
      destruct Hbest as [-> _]. f_equal. lia.
    - rewrite andb_false_r in Hbest. destruct Hbest as [-> _]. f_equal. lia. }
  split_and!.
  - intros e g g1 H. split; [by eapply handle_best_le|].
    apply handle_best in H as (s0 & _ & _ & Hbest). unfold bestFrom in Hbest.
    destruct ((s0 <? score g1)%Z && gt_num (score g1) (bestScore g)) eqn:E.
    + right. apply andb_true_iff in E as [_ E]. destruct Hbest as [Hb Hl].
      split_and!; [exact E|exact Hb|exact Hl| |].
      * rewrite Hl. apply lookup_insert_eq.
      * rewrite Hl, Hb. apply loadBestScore_written.
    + by left.
  - intros es g g1. apply run_best_le.
  - intros g. destruct (freshRun_best g) as (? & ? & _). split_and!; [done..|].
    destruct (startGame_best g) as [_ Hb]. by eapply bestFrom_best_le.
  - exact Hmax.
  - intros es rnd w ls g1 b Hload Hb0.
    assert (∀ g, (∃ b0, bestScore g = Int b0 ∧ (b <= b0)%Z ∧ (score g <= b0)%Z) →
              run es g = Some g1 →
              ∃ b1, bestScore g1 = Int b1 ∧ (b <= b1)%Z ∧ (score g1 <= b1)%Z)
      as Hinv.
    { induction es as [|e es IH]; intros g Hg Hrun; simpl in Hrun.
      - by injection Hrun as <-.
      - destruct (handle e g) as [g2|] eqn:E; [|done].
        apply (IH g2); [|done]. destruct Hg as (b0 & Hg & ? & ?).
        exists (Z.max b0 (score g2)). split_and!; [|lia..].
        eapply Hmax; [done..|lia|done]. }
    apply Hinv. exists b. split_and!; [|lia|simpl; lia].
    simpl. by rewrite <- Hload.
Qed.


(** ** Loading the best score *)

Lemma best_le_NaN (b : num) : best_le NaN b → b = NaN.
Proof. by intros [<-|(x & y & [=] & _)]. Qed.

(** C5.  [loadBestScore] gives 0 when nothing or the empty string is
    stored and [parseInt] of the stored string otherwise.  That is the
    stored integer for a string such as ["42"], but [NaN] for a string with
    no leading digits such as ["abc"], and a negative integer for ["-5"]:
    an unparsable entry does not load as 0.  Once loaded, [NaN] stays for
    good, whatever is played.  What the game itself writes, the decimal
    form of an integer, loads as that integer. *)
Theorem loadBestScore_unparsable :
  (∀ ls : gmap string string, ls !! BEST_KEY = None → loadBestScore ls = Int 0)
  ∧ (∀ ls : gmap string string,
       ls !! BEST_KEY = Some EmptyString → loadBestScore ls = Int 0)
  ∧ (∀ (ls : gmap string string) raw,
       ls !! BEST_KEY = Some raw → raw ≠ EmptyString →
       loadBestScore ls = parseInt raw)
  ∧ loadBestScore {[ BEST_KEY := "42"%string ]} = Int 42
  ∧ loadBestScore {[ BEST_KEY := "abc"%string ]} = NaN
  ∧ loadBestScore {[ BEST_KEY := "-5"%string ]} = Int (-5)
  ∧ (∀ rnd w, bestScore (onMount rnd w {[ BEST_KEY := "abc"%string ]}) = NaN)
  ∧ (∀ rnd w es g1,
       run es (onMount rnd w {[ BEST_KEY := "abc"%string ]}) = Some g1 →
       bestScore g1 = NaN)
  ∧ (∀ (ls : gmap string string) (z : Z),
       loadBestScore (<[BEST_KEY := pretty z]> ls) = Int z).
Proof.
  split_and!.
  - intros ls H. unfold loadBestScore. by rewrite H.
  - intros ls H. unfold loadBestScore. by rewrite H.
  - intros ls raw H Hne. unfold loadBestScore. rewrite H. by destruct raw.
  - vm_compute. reflexivity.
  - vm_compute. reflexivity.
  - vm_compute. reflexivity.
  - intros rnd w. reflexivity.
  - intros rnd w es g1 Hrun. apply run_best_le in Hrun.
    apply best_le_NaN. exact Hrun.
  - apply loadBestScore_written.
Qed.

(** ** Counterexamples *)

Lemma reachable_playing : reachable playing.
Proof. apply reachable_startGame, reachable_mount. Qed.

Lemma reachable_pausedGame : reachable pausedGame.
Proof. apply reachable_togglePause, reachable_playing. Qed.


(** C6, counterexample.  On a paused game, reached by starting and
    pausing, [flap] replaces the velocity 0.55 by -8.5. *)
Lemma flap_on_paused_game_sets_vy :
  reachable pausedGame
  ∧ stateOf pausedGame = Some Paused
  ∧ Bird.vy (bird pausedGame) == 0.55
  ∧ Bird.vy (bird (flap pausedGame)) == -8.5
  ∧ flap pausedGame ≠ pausedGame.
Proof.
  split_and!.
  - apply reachable_pausedGame.
  - vm_compute. reflexivity.
  - vm_compute. reflexivity.
  - vm_compute. reflexivity.
  - intros H. apply (f_equal (λ g, Qnum (Bird.vy (bird g)))) in H.
    vm_compute in H. discriminate H.
Qed.

(** C8, counterexample.  On that paused game [togglePause] itself moves the
    world: when it returns the bird has fallen and the pipe has moved. *)
Lemma resume_moves_the_world :
  stateOf pausedGame = Some Paused
  ∧ Bird.y (bird pausedGame) == 300.55
  ∧ Bird.y (bird (togglePause pausedGame)) == 301.65
  ∧ map Pipe.x (pipes pausedGame) = [397.8]
  ∧ (∃ p, pipes (togglePause pausedGame) = [p] ∧ Pipe.x p == 395.6)
  ∧ bird (togglePause pausedGame) ≠ bird pausedGame.
Proof.
  split_and!.
  - vm_compute. reflexivity.
  - vm_compute. reflexivity.
  - vm_compute. reflexivity.
  - vm_compute. reflexivity.
  - eexists. split; vm_compute; reflexivity.
  - intros H. apply (f_equal (λ b, Qnum (Bird.vy b))) in H.
    vm_compute in H. discriminate H.
Qed.

(** ** Instances *)

(** The theorems above at the concrete games: each hypothesis is met there
    and the conclusion is read off. *)

Lemma togglePause_freezes_world_witness :
  stateOf playing = Some Running ∧ frozen playing (togglePause playing).
Proof.
  assert (stateOf playing = Some Running) as H by (vm_compute; reflexivity).
  split; [exact H|].
  exact (proj1 (proj2 (togglePause_freezes_world playing H))).
Defined.

Lemma reachable_flags_witness :
  ∃ st, stateOf pausedGame = Some st.
Proof.
  exact (proj1 (proj2 (reachable_flags pausedGame reachable_pausedGame))).
Defined.



Lemma bestScore_monotone_witness :
  ∃ g1, handle (Frame 1) aboutToPass = Some g1
        ∧ bestScore aboutToPass = Int 0
        ∧ bestScore g1 = Int 1
        ∧ best_le (bestScore aboutToPass) (bestScore g1)
        ∧ localStorage g1 !! BEST_KEY = Some "1"%string.
Proof.
  eexists. split; [vm_compute; reflexivity|].
  match goal with |- context [bestScore ?g = Int 1] => set (g1 := g) end.
  assert (handle (Frame 1) aboutToPass = Some g1) as H
    by (vm_compute; reflexivity).
  destruct bestScore_monotone as (Hstep & _ & _ & Hmax & _).
  destruct (Hstep _ _ _ H) as [Hle Hcases].
  split_and!.
  - vm_compute. reflexivity.
  - rewrite (Hmax _ _ _ 0%Z H); vm_compute; try reflexivity; discriminate.
  - exact Hle.
  - destruct Hcases as [[Hsame _]|(_ & _ & _ & Hl & _)].
    + rewrite (Hmax _ _ _ 0%Z H) in Hsame;
        vm_compute in Hsame; try reflexivity; discriminate.
    + rewrite Hl. vm_compute. reflexivity.
Defined.

Lemma flap_effect_witness :
  Bird.vy (bird (flap playing)) = JUMP ∧ flap mounted = mounted.
Proof.
  destruct (flap_effect playing) as (Hrun & _).
  destruct (flap_effect mounted) as (_ & _ & _ & Hidle & _).
  split.
  - apply Hrun; vm_compute; reflexivity.
  - apply Hidle. left. vm_compute. reflexivity.
Defined.


Lemma primary_input_routing_witness :
  handleStartInput pausedGame = togglePause pausedGame
  ∧ handleStartInput playing = flap playing
  ∧ handleStartInput mounted = startGame mounted
  ∧ onKeydown " " pausedGame = handleStartInput pausedGame.
Proof.
  destruct (primary_input_routing pausedGame)
    as (_ & _ & _ & _ & _ & _ & _ & Hpaused & _ & _ & Hkey).
  destruct (primary_input_routing playing)
    as (_ & _ & _ & _ & _ & _ & _ & _ & Hrunning & _).
  destruct (primary_input_routing mounted)
    as (_ & _ & _ & _ & _ & Hidle & _).
  split_and!.
  - apply Hpaused. vm_compute. reflexivity.
  - apply Hrunning. vm_compute. reflexivity.
  - apply Hidle. vm_compute. reflexivity.
  - apply Hkey; [apply reachable_pausedGame | by left].
Defined.

(** * Further properties *)

(** ** What the events leave alone *)

Lemma update_frameQueue (g : Game) : frameQueue (update g) ⊆ frameQueue g.
Proof.
  destruct (onGround (fall g)) eqn:E.
  - rewrite (update_ground _ E). unfold land, endGame.
    etrans; [apply cancel_frameQueue|]. by destruct g.
  - rewrite (update_air _ E). etrans; [apply collide_frameQueue|].
    destruct (scroll_host (clampCeiling (fall g))) as (_ & _ & -> & _).
    unfold clampCeiling, fall. destruct (Qltb _ _); by destruct g.
Qed.

Lemma update_random (g : Game) : random (update g) = random g.
Proof.
  destruct (onGround (fall g)) eqn:E.
  - rewrite (update_ground _ E). by game_cases g.
  - rewrite (update_air _ E).
    destruct (collide_shape (scroll (clampCeiling (fall g))))
      as (ps & s & b & ls & hit & ->).
    transitivity (random (scroll (clampCeiling (fall g)))).
    { destruct (scroll (clampCeiling (fall g))) as [? ? [?|] ? ? ? ? ? ? ? ? ? ? ? ?];
        by destruct hit. }
    transitivity (random (clampCeiling (fall g))).
    { unfold scroll. destruct (spawnDue _); by destruct (clampCeiling (fall g)). }
    by destruct (clampCeiling_fall_rest g) as (_ & _ & _ & _ & _ & _ & ->).
Qed.

Lemma animate_sameWorldSize (g : Game) : sameWorldSize g (animate g).
Proof.
  unfold sameWorldSize. destruct (gamePaused g) eqn:Hp.
  - by rewrite animate_paused.
  - rewrite (animate_running _ Hp).
    destruct (update_settings g) as (Hw & Hh & _).
    pose proof (update_random g) as Hr.
    destruct (gameOver (update g)); [done|]. simpl. done.
Qed.

Lemma startGame_sameWorldSize (g : Game) : sameWorldSize g (startGame g).
Proof.
  change (startGame g) with (animate (freshRun g)). unfold sameWorldSize.
  destruct (animate_sameWorldSize (freshRun g)) as (-> & -> & ->).
  by destruct g.
Qed.

Lemma togglePause_sameWorldSize (g : Game) : sameWorldSize g (togglePause g).
Proof.
  unfold togglePause, sameWorldSize.
  destruct (negb (gameStarted g) || gameOver g); [done|].
  destruct (gamePaused g).
  - destruct (animate_sameWorldSize (set_gamePaused false g)) as (-> & -> & ->).
    by destruct g.
  - by game_cases g.
Qed.

Lemma flap_sameWorldSize (g : Game) : sameWorldSize g (flap g).
Proof.
  unfold flap, sameWorldSize. destruct (negb (gameStarted g)); [done|].
  destruct (gameOver g); [done|]. by destruct g.
Qed.

(** Every event keeps the size of the world, or is a resize. *)
Lemma handle_sameWorldSize (e : Event) (g g1 : Game) :
  handle e g = Some g1 →
  (sameWorldSize g g1 ∨ ∃ w, g1 = resizeCanvas w g) ∧ random g1 = random g.
Proof.
  intros Hstep. apply handle_cases in Hstep
    as [->| [->| [->| [->| [[w ->]| (h & Hin & ->)]]]]].
  - pose proof (startGame_sameWorldSize g) as H. split; [by left|apply H].
  - pose proof (togglePause_sameWorldSize g) as H. split; [by left|apply H].
  - pose proof (flap_sameWorldSize g) as H. split; [by left|apply H].
  - split; [by left|done].
  - split; [right; by exists w|by destruct g].
  - pose proof (animate_sameWorldSize (set_frameQueue (frameQueue g ∖ {[h]}) g))
      as (Hw & Hh & Hr).
    split; [left; split_and!|]; by destruct g.
Qed.

(** ** Resizing *)

Lemma resizeCanvas_size (w : Q) (g : Game) :
  baseHeight (resizeCanvas w g) == baseWidth (resizeCanvas w g) * 1.5
  ∧ baseWidth (resizeCanvas w g) <= 400
  ∧ (420 <= w → baseWidth (resizeCanvas w g) == 400)
  ∧ (w <= 420 → baseWidth (resizeCanvas w g) == w - 20).
Proof.
  unfold resizeCanvas. simpl.
  set (width := if Qgtb w 480 then 400 else Qmin 400 (w - 20)).
  assert (width <= 400 ∧ (420 <= w → width == 400) ∧ (w <= 420 → width == w - 20))
    as (H1 & H2 & H3).
  { subst width. destruct (Qgtb w 480) eqn:E.
    - apply Qgtb_gt in E. split_and!; [lra|reflexivity|lra].
    - apply Qgtb_le in E. split_and!.
      + apply Q.le_min_l.
      + intros Hw. apply Q.min_l. lra.
      + intros Hw. apply Q.min_r. lra. }
  split_and!; [|done..]. field.
Qed.


(** ** Score *)

Lemma handle_score (e : Event) (g g1 : Game) :
  handle e g = Some g1 →
  (score g <= score g1)%Z ∨ (g1 = startGame g ∧ (0 <= score g1)%Z).
Proof.
  intros Hstep. apply handle_cases in Hstep
    as [->| [->| [->| [->| [[w ->]| (h & Hin & ->)]]]]].
  - right. split; [done|apply startGame_best].
  - left. apply togglePause_best.
  - left. unfold flap. destruct (negb (gameStarted g)); [done|].
    destruct (gameOver g); [done|]. by destruct g.
  - by left.
  - left. by destruct g.
  - left. destruct (animate_best (set_frameQueue (frameQueue g ∖ {[h]}) g)) as [H _].
    by destruct g.
Qed.

(** X2.  The score is never negative, and no event lowers it except a
    restart, which leaves it at 0 or more; in particular ticks, pauses,
    resumes, flaps and resizes never lower it. *)
Theorem score_only_restart_lowers :
  (∀ g, reachable g → (0 <= score g)%Z)
  ∧ (∀ e g g1, handle e g = Some g1 →
       (score g <= score g1)%Z ∨ g1 = startGame g)
  ∧ (∀ g, (score g <= score (update g))%Z
          ∧ (score g <= score (animate g))%Z
          ∧ (score g <= score (togglePause g))%Z
          ∧ score (flap g) = score g
          ∧ (0 <= score (startGame g))%Z).
Proof.
  split_and!.
  - intros g Hr. induction Hr as [rnd w ls|g g1 e _ IH Hstep]; [done|].
    destruct (handle_score _ _ _ Hstep) as [H|[_ H]]; lia.
  - intros e g g1 Hstep.
    destruct (handle_score _ _ _ Hstep) as [H|[H _]]; [by left|by right].
  - intros g. split_and!.
    + apply update_best.
    + apply animate_best.
    + apply togglePause_best.
    + unfold flap. destruct (negb (gameStarted g)); [done|].
      destruct (gameOver g); [done|]. by destruct g.
    + apply startGame_best.
Qed.

(** ** The state machine *)

Lemma startGame_flags (g : Game) :
  gameStarted (startGame g) = true ∧ gamePaused (startGame g) = false.
Proof.
  change (startGame g) with (animate (freshRun g)).
  destruct (animate_flags (freshRun g)) as (-> & -> & _). by destruct g.
Qed.

(** No event clears [gameStarted], and [gamePaused] is only set on a game
    that is started and not over. *)
Lemma handle_flags (e : Event) (g g1 : Game) :
  handle e g = Some g1 →
  (gameStarted g = true → gameStarted g1 = true)
  ∧ (gamePaused g1 = true →
       gamePaused g = true ∨ (gameStarted g = true ∧ gameOver g = false)).
Proof.
  intros Hstep. apply handle_cases in Hstep
    as [->| [->| [->| [->| [[w ->]| (h & Hin & ->)]]]]].
  - destruct (startGame_flags g) as [-> ->]. by split.
  - unfold togglePause. destruct (gameStarted g) eqn:Hs; [|by split; auto].
    destruct (gameOver g) eqn:Ho; [by split; auto|]. cbn [negb orb].
    destruct (gamePaused g) eqn:Hp.
    + destruct (animate_flags (set_gamePaused false g)) as (-> & -> & _).
      split; [by destruct g|auto].
    + split; [by game_cases g|auto].
  - unfold flap. destruct (negb (gameStarted g)); [by split; auto|].
    destruct (gameOver g); [by split; auto|]. split; [by destruct g|].
    destruct g; simpl. auto.
  - by split; auto.
  - split; destruct g; simpl; auto.
  - destruct (animate_flags (set_frameQueue (frameQueue g ∖ {[h]}) g))
      as (-> & -> & _).
    split; destruct g; simpl; auto.
Qed.

(** X3.  From every reachable state every event leads to a state that the
    flags read as one of the four, and only along these moves: NotStarted
    to Running or GameOver, Running to Paused or GameOver, Paused to
    Running or GameOver, GameOver to Running, or staying put.  So a started
    game never reads NotStarted again, and a pause is never entered from
    NotStarted or GameOver. *)
Theorem state_transitions (g g1 : Game) (e : Event) (s : GameState) :
  reachable g → stateOf g = Some s → handle e g = Some g1 →
  ∃ s1, stateOf g1 = Some s1 ∧ allowedTransition s s1 = true.
Proof.
  intros Hr Hs Hstep.
  assert (reachable g1) as Hr1 by (by eapply reachable_step).
  destruct (flagsOk_stateOf g1 (reachable_flagsOk g1 Hr1)) as [s1 Hs1].
  exists s1. split; [done|].
  destruct (handle_flags _ _ _ Hstep) as [Hstarted Hpaused].
  apply stateOf_flags in Hs, Hs1.
  destruct s, s1; try done; destruct Hs as (? & ? & ?), Hs1 as (? & ? & ?).
  - destruct Hpaused as [?|[? ?]]; congruence.
  - rewrite Hstarted in *; done.
  - rewrite Hstarted in *; done.
  - rewrite Hstarted in *; done.
  - destruct Hpaused as [?|[? ?]]; congruence.
Qed.

(** ** The stored best score *)

Lemma handle_storage (e : Event) (g g1 : Game) :
  handle e g = Some g1 →
  (bestScore g1 = bestScore g ∧ localStorage g1 = localStorage g)
  ∨ ∃ z : Z, bestScore g1 = Int z
             ∧ localStorage g1 = <[BEST_KEY := pretty z]> (localStorage g).
Proof.
  intros (s0 & _ & _ & Hbest)%handle_best. unfold bestFrom in Hbest.
  destruct ((s0 <? score g1)%Z && _); [right; by exists (score g1)|by left].
Qed.

(** X4.  In every reachable state the stored entry reads back as the best
    score in memory, so a component mounted later on the same storage
    starts from that best score; and no run of events writes, removes or
    changes any key other than ['flappybird_best']. *)
Theorem storage_in_sync :
  (∀ g, reachable g →
     loadBestScore (localStorage g) = bestScore g
     ∧ ∀ rnd w, bestScore (onMount rnd w (localStorage g)) = bestScore g)
  ∧ (∀ es g g1 k, run es g = Some g1 → k ≠ BEST_KEY →
       localStorage g1 !! k = localStorage g !! k).
Proof.
  split.
  - intros g Hr.
    assert (loadBestScore (localStorage g) = bestScore g) as H; [|by split].
    induction Hr as [rnd w ls|g g1 e _ IH Hstep]; [done|].
    destruct (handle_storage _ _ _ Hstep) as [[-> ->]|(z & -> & ->)]; [done|].
    apply loadBestScore_written.
  - induction es as [|e es IH]; intros g g1 k Hrun Hk; simpl in Hrun.
    + by injection Hrun as <-.
    + destruct (handle e g) as [g2|] eqn:Hstep; [|done].
      rewrite (IH g2 g1 k Hrun Hk).
      destruct (handle_storage _ _ _ Hstep) as [[_ ->]|(z & _ & ->)]; [done|].
      by rewrite lookup_insert_ne.
Qed.

(** ** Keys *)

Lemma lowerChar_p (c : ascii) :
  lowerChar c = "p"%char → c = "p"%char ∨ c = "P"%char.
Proof.
  destruct c as [[] [] [] [] [] [] [] []]; vm_compute; intros H;
    first [discriminate H | by left | by right].
Qed.

Lemma lowerChar_r (c : ascii) :
  lowerChar c = "r"%char → c = "r"%char ∨ c = "R"%char.
Proof.
  destruct c as [[] [] [] [] [] [] [] []]; vm_compute; intros H;
    first [discriminate H | by left | by right].
Qed.

Lemma toLowerCase_p (key : string) :
  toLowerCase key = "p"%string ↔ key = "p"%string ∨ key = "P"%string.
Proof.
  split.
  - destruct key as [|c [|c1 rest]]; [done| |done]. simpl.
    intros [= H]. destruct (lowerChar_p c H) as [->| ->]; auto.
  - by intros [->| ->].
Qed.

Lemma toLowerCase_r (key : string) :
  toLowerCase key = "r"%string ↔ key = "r"%string ∨ key = "R"%string.
Proof.
  split.
  - destruct key as [|c [|c1 rest]]; [done| |done]. simpl.
    intros [= H]. destruct (lowerChar_r c H) as [->| ->]; auto.
  - by intros [->| ->].
Qed.

Lemma onKeydown_other (key : string) (g : Game) :
  isPrimaryKey key = false →
  onKeydown key g =
    (if bool_decide (toLowerCase key = "p")
     then (if gameStarted g && negb (gameOver g) then togglePause g else g)
     else if bool_decide (toLowerCase key = "r") && gameOver g
          then startGame g else g).
Proof.
  intros Hk. unfold onKeydown. rewrite Hk.
  destruct (bool_decide (toLowerCase key = "p")) eqn:E.
  - apply bool_decide_eq_true in E. rewrite E. cbn [andb].
    replace (bool_decide ("p"%string = "r"%string)) with false by done.
    by destruct (gameStarted g && negb (gameOver g)).
  - reflexivity.
Qed.

(** X5.  What the keys do.  [p] and [P] toggle the pause when the game is
    started and not over and do nothing otherwise; [r] and [R] restart
    when the game is over and do nothing otherwise; every key other than
    Space, ArrowUp and these four leaves the game exactly as it is. *)
Theorem key_bindings (g : Game) :
  (∀ key, key = "p"%string ∨ key = "P"%string →
     onKeydown key g
     = if gameStarted g && negb (gameOver g) then togglePause g else g)
  ∧ (∀ key, key = "r"%string ∨ key = "R"%string →
       onKeydown key g = if gameOver g then startGame g else g)
  ∧ (∀ key,
       key ≠ " "%string → key ≠ "ArrowUp"%string →
       key ≠ "p"%string → key ≠ "P"%string →
       key ≠ "r"%string → key ≠ "R"%string →
       onKeydown key g = g).
Proof.
  split_and!.
  - intros key Hkey.
    rewrite onKeydown_other by (by destruct Hkey as [->| ->]).
    by rewrite (bool_decide_eq_true_2 _ (proj2 (toLowerCase_p key) Hkey)).
  - intros key Hkey.
    rewrite onKeydown_other by (by destruct Hkey as [->| ->]).
    rewrite (bool_decide_eq_true_2 _ (proj2 (toLowerCase_r key) Hkey)).
    by destruct Hkey as [->| ->].
  - intros key H1 H2 H3 H4 H5 H6. rewrite onKeydown_other.
    + rewrite bool_decide_eq_false_2 by (rewrite toLowerCase_p; tauto).
      by rewrite bool_decide_eq_false_2 by (rewrite toLowerCase_r; tauto).
    + unfold isPrimaryKey. by rewrite !bool_decide_eq_false_2.
Qed.

(** ** Scheduling *)

(** A page event, with the state in which it reaches [startGame]. *)
Lemma page_event_cases (e : Event) (g g1 : Game) :
  isPageEvent e = true → handle e g = Some g1 →
  (g1 = startGame g ∧ (gameStarted g = false ∨ gameOver g = true))
  ∨ (g1 = togglePause g ∧ gameStarted g = true)
  ∨ (g1 = flap g ∧ gamePaused g = false)
  ∨ g1 = g
  ∨ (∃ w, g1 = resizeCanvas w g)
  ∨ (∃ h, h ∈ frameQueue g
          ∧ g1 = animate (set_frameQueue (frameQueue g ∖ {[h]}) g)).
Proof.
  intros Hpage Hstep. destruct e; try done; simpl in Hstep.
  - unfold runFrame in Hstep. case_bool_decide; [|done].
    injection Hstep as <-. do 5 right. by exists h.
  - injection Hstep as <-. unfold handleStartInput.
    destruct (gameStarted g) eqn:Hs; [|left; by auto].
    destruct (gameOver g) eqn:Ho, (gamePaused g) eqn:Hp; cbn [negb orb andb];
      auto 10.
  - injection Hstep as <-. destruct (isPrimaryKey key) eqn:Hk.
    + rewrite (onKeydown_primary _ _ Hk).
      destruct (gameStarted g) eqn:Hs; [|left; by auto].
      destruct (gameOver g) eqn:Ho; [left; by auto|]. cbn [negb orb].
      destruct (gamePaused g) eqn:Hp; auto 10.
    + rewrite (onKeydown_other _ _ Hk).
      destruct (bool_decide (toLowerCase key = "p")).
      * destruct (gameStarted g) eqn:Hs; cbn [andb]; [|auto 10].
        destruct (negb (gameOver g)); auto 10.
      * destruct (bool_decide (toLowerCase key = "r")); cbn [andb]; [|auto 10].
        destruct (gameOver g) eqn:Ho; auto 10.
  - injection Hstep as <-. unfold onMainButton.
    destruct (gameStarted g) eqn:Hs; [|left; by auto].
    destruct (gameOver g) eqn:Ho; cbn [negb orb]; auto 10.
  - injection Hstep as <-. do 4 right. left. by exists innerWidth.
Qed.

Lemma scheduleOk_animate (g : Game) :
  gameStarted g = true → gamePaused g = false → frameQueue g = ∅ →
  scheduleOk (animate g).
Proof.
  intros Hs Hp Hq. rewrite (animate_running _ Hp).
  destruct (update_settings g) as (_ & _ & Hs1 & Hp1).
  pose proof (update_frameQueue g) as Hsub. rewrite Hq in Hsub.
  assert (frameQueue (update g) = ∅) as Hq1.
  { apply set_eq. intros x. split; [apply Hsub|intros []%not_elem_of_empty]. }
  unfold scheduleOk, stateOf.
  destruct (gameOver (update g)) eqn:Ho.
  - by rewrite Hs1, Hp1, Hs, Hp, Ho.
  - simpl. rewrite Hs1, Hp1, Hs, Hp, Ho. eexists. split; [done|].
    rewrite Hq1. apply union_empty_r_L.
Qed.

Lemma pageReachable_reachable (g : Game) : pageReachable g → reachable g.
Proof.
  induction 1 as [rnd w ls|g g1 e _ IH _ Hstep]; [apply reachable_mount|].
  by eapply reachable_step.
Qed.

Lemma pageReachable_scheduleOk (g : Game) : pageReachable g → scheduleOk g.
Proof.
  induction 1 as [rnd w ls|g g1 e Hr IH Hpage Hstep]; [done|].
  pose proof (reachable_flagsOk _ (pageReachable_reachable _ Hr)) as [Hns Hpo].
  destruct (page_event_cases _ _ _ Hpage Hstep)
    as [[-> Hst]| [[-> Hs]| [[-> Hp]| [->| [[w ->]| (h & Hin & ->)]]]]].
  - change (startGame g) with (animate (freshRun g)).
    apply scheduleOk_animate; [by destruct g..|].
    transitivity (frameQueue g); [by destruct g|].
    destruct Hst as [Hs|Ho].
    + by destruct (Hns Hs) as (_ & _ & ?).
    + unfold scheduleOk, stateOf in IH. rewrite Ho in IH.
      destruct (gameStarted g), (gamePaused g); done.
  - unfold togglePause. rewrite Hs. cbn [negb orb].
    destruct (gameOver g) eqn:Ho; [done|].
    destruct (gamePaused g) eqn:Hp.
    + apply scheduleOk_animate; [by destruct g..|].
      unfold scheduleOk, stateOf in IH. rewrite Hs, Hp, Ho in IH.
      by destruct g.
    + unfold scheduleOk, stateOf in IH. rewrite Hs, Hp, Ho in IH.
      destruct IH as (h & Hh & Hq). unfold scheduleOk, stateOf.
      rewrite Hh. destruct g; simpl in *. subst. simpl.
      apply difference_diag_L.
  - unfold flap. destruct (negb (gameStarted g)); [done|].
    destruct (gameOver g); [done|].
    unfold scheduleOk, stateOf in *. by destruct g.
  - done.
  - unfold scheduleOk, stateOf in *. by destruct g.
  - unfold scheduleOk, stateOf in IH.
    destruct (gameStarted g) eqn:Hs;
      [|destruct (Hns eq_refl) as (_ & _ & Hq); rewrite Hq in Hin;
        by apply not_elem_of_empty in Hin].
    destruct (gamePaused g) eqn:Hp.
    { rewrite Hpo in IH by done. rewrite IH in Hin.
      by apply not_elem_of_empty in Hin. }
    destruct (gameOver g) eqn:Ho.
    { rewrite IH in Hin. by apply not_elem_of_empty in Hin. }
    destruct IH as (h1 & Hh & Hq).
    apply scheduleOk_animate; [by destruct g..|].
    rewrite Hq in Hin. apply elem_of_singleton in Hin as ->.
    destruct g; simpl in *. subst.
    apply difference_diag_L.
Qed.

(** X6.  Under the events the page delivers, exactly one frame callback is
    pending while the game runs, the one whose handle [animationFrame]
    holds, and none is pending before the first start, while paused or
    after the game is over: so no tick can run in those states, and
    never two in a row from two loops. *)
Theorem one_pending_frame (g : Game) :
  pageReachable g →
  (stateOf g = Some Running →
     ∃ h, animationFrame g = Some h ∧ frameQueue g = {[h]})
  ∧ (stateOf g ≠ Some Running → frameQueue g = ∅)
  ∧ (size (frameQueue g) <= 1)%nat
  ∧ (∀ h, stateOf g ≠ Some Running → runFrame h g = None).
Proof.
  intros Hr. pose proof (pageReachable_scheduleOk g Hr) as Hok.
  unfold scheduleOk in Hok.
  destruct (stateOf g) as [[]|] eqn:Hst; [| | | |done].
  - split_and!; [done|done|rewrite Hok, size_empty; lia|].
    intros h _. unfold runFrame. rewrite Hok. by rewrite bool_decide_eq_false_2.
  - destruct Hok as (h & Hh & Hq). split_and!; [by eauto|done| |done].
    rewrite Hq, size_singleton. lia.
  - split_and!; [done|done|rewrite Hok, size_empty; lia|].
    intros h _. unfold runFrame. rewrite Hok. by rewrite bool_decide_eq_false_2.
  - split_and!; [done|done|rewrite Hok, size_empty; lia|].
    intros h _. unfold runFrame. rewrite Hok. by rewrite bool_decide_eq_false_2.
Qed.

(** X7.  Once the game is over, nothing the page delivers changes the bird,
    the pipes or the score, and the game stays over, until an event that is
    a restart: a pointer press, Space, ArrowUp, [r], [R] or the button. *)
Theorem game_over_is_final (g g1 : Game) (e : Event) :
  pageReachable g → stateOf g = Some GameOver →
  isPageEvent e = true → handle e g = Some g1 →
  g1 = startGame g
  ∨ (stateOf g1 = Some GameOver
     ∧ bird g1 = bird g ∧ pipes g1 = pipes g ∧ score g1 = score g).
Proof.
  intros Hr Hst Hpage Hstep.
  pose proof (pageReachable_scheduleOk g Hr) as Hok.
  unfold scheduleOk in Hok. rewrite Hst in Hok.
  pose proof (stateOf_flags _ _ Hst) as (Hs & Hp & Ho).
  destruct (page_event_cases _ _ _ Hpage Hstep)
    as [[-> _]| [[-> _]| [[-> _]| [->| [[w ->]| (h & Hin & ->)]]]]].
  - by left.
  - right. unfold togglePause. by rewrite Hs, Ho.
  - right. unfold flap. by rewrite Hs, Ho.
  - by right.
  - right. unfold stateOf in *. by destruct g.
  - rewrite Hok in Hin. by apply not_elem_of_empty in Hin.
Qed.

(** ** Flight *)







(** ** Collision with a pipe *)


(** ** The bird's constants *)

Lemma integrate_shape (b : Bird.t) :
  Bird.x (integrate b) = Bird.x b ∧ Bird.width (integrate b) = Bird.width b
  ∧ Bird.height (integrate b) = Bird.height b.
Proof. by destruct b. Qed.




(** ** Spacing of the pipes *)
















(** ** Shape of the pipes *)

Lemma wellShaped_geometry (p p1 : Pipe.t) :
  Pipe.geometry p1 = Pipe.geometry p → wellShaped p → wellShaped p1.
Proof.
  destruct p, p1. unfold Pipe.geometry, wellShaped. simpl.
  by intros [= -> -> -> ->].
Qed.

Lemma Forall_wellShaped_geometry (ps ps1 : list Pipe.t) :
  map Pipe.geometry ps1 = map Pipe.geometry ps →
  Forall wellShaped ps → Forall wellShaped ps1.
Proof.
  revert ps1. induction ps as [|p ps IH]; intros [|p1 ps1] E H; try done.
  simpl in E.
  assert (Pipe.geometry p1 = Pipe.geometry p) as Hp by congruence.
  assert (map Pipe.geometry ps1 = map Pipe.geometry ps) as Hps by congruence.
  apply Forall_cons in H as [Hhead Htail].
  constructor; [by eapply wellShaped_geometry|by apply IH].
Qed.

Lemma wellShaped_movePipe (p : Pipe.t) : wellShaped p → wellShaped (movePipe p).
Proof. by destruct p. Qed.

Lemma wellShaped_newPipe (w r : Q) : 0 <= r < 1 → wellShaped (newPipe w r).
Proof. intros Hr. split_and!; [done..|]. by apply newPipe_height_range. Qed.

Lemma update_wellShaped (g : Game) :
  0 <= random g (randomCalls g) < 1 →
  Forall wellShaped (pipes g) → Forall wellShaped (pipes (update g)).
Proof.
  intros Hr H. destruct (onGround (fall g)) eqn:E.
  - rewrite (update_ground _ E).
    replace (pipes (land (fall g))) with (pipes g) by (by game_cases g). done.
  - eapply Forall_wellShaped_geometry; [apply (update_geometry g E)|].
    destruct (cull_shape (map movePipe (pipes g))) as (k & _ & ->).
    apply Forall_app. split.
    + apply Forall_drop, List.Forall_map.
      eapply Forall_impl; [exact H|]. apply wellShaped_movePipe.
    + destruct (spawnDue _); [|constructor].
      constructor; [by apply wellShaped_newPipe|constructor].
Qed.

Lemma animate_wellShaped (g : Game) :
  0 <= random g (randomCalls g) < 1 →
  Forall wellShaped (pipes g) → Forall wellShaped (pipes (animate g)).
Proof.
  intros Hr H. destruct (gamePaused g) eqn:Hp; [by rewrite animate_paused|].
  rewrite (animate_running _ Hp). pose proof (update_wellShaped g Hr H).
  by destruct (gameOver (update g)).
Qed.

Lemma reachable_wellShaped (g : Game) :
  reachable g → (∀ n, 0 <= random g n < 1) → Forall wellShaped (pipes g).
Proof.
  induction 1 as [rnd w ls|g g1 e _ IH Hstep]; intros Hrnd; [by constructor|].
  destruct (handle_sameWorldSize _ _ _ Hstep) as [_ Hsame].
  rewrite Hsame in Hrnd. specialize (IH Hrnd).
  apply handle_cases in Hstep
    as [->| [->| [->| [->| [[w ->]| (h & Hin & ->)]]]]].
  - change (startGame g) with (animate (freshRun g)).
    apply animate_wellShaped.
    + replace (random (freshRun g)) with (random g) by (by destruct g).
      apply Hrnd.
    + replace (pipes (freshRun g))
        with [newPipe (baseWidth g) (random g (randomCalls g))]
        by (by destruct g).
      constructor; [by apply wellShaped_newPipe|constructor].
  - unfold togglePause. destruct (negb (gameStarted g) || gameOver g); [done|].
    destruct (gamePaused g); [|by game_cases g].
    apply animate_wellShaped; [destruct g; apply Hrnd|by destruct g].
  - unfold flap. destruct (negb (gameStarted g)); [done|].
    destruct (gameOver g); [done|]. by destruct g.
  - done.
  - by destruct g.
  - apply animate_wellShaped; [destruct g; apply Hrnd|by destruct g].
Qed.

(** X12.  With a random source that draws from [0,1), every pipe of every
    reachable state is 52 wide, has a gap of 114 and an integer height from
    40 to 259.  In a world at least 428 high, which every window at least
    306 wide gives, the obstacle above the gap and the one below it both
    have positive height. *)
Theorem pipes_well_shaped (g : Game) :
  reachable g → (∀ n, 0 <= random g n < 1) →
  Forall wellShaped (pipes g)
  ∧ (428 <= baseHeight g →
     Forall (λ p, 40 <= Pipe.height p
                  ∧ 1 <= baseHeight g - GROUND_HEIGHT - (Pipe.height p + PIPE_GAP))
       (pipes g))
  ∧ (∀ w g0, 306 <= w → 428 <= baseHeight (resizeCanvas w g0)).
Proof.
  intros Hr Hrnd. pose proof (reachable_wellShaped g Hr Hrnd) as H.
  split_and!; [done| |].
  - intros HH. eapply Forall_impl; [exact H|].
    intros p (_ & _ & z & Hz & Hz1 & Hz2).
    assert (inject_Z 40 <= inject_Z z) as H40 by (by rewrite <- Zle_Qle).
    assert (inject_Z z <= inject_Z 259) as H259 by (rewrite <- Zle_Qle; lia).
    rewrite Hz. unfold GROUND_HEIGHT, PIPE_GAP.
    change (inject_Z 40) with 40 in H40. change (inject_Z 259) with 259 in H259.
    split; lra.
  - intros w g0 Hw. destruct (resizeCanvas_size w g0) as (Ha & _ & Hc & Hd).
    rewrite Ha. destruct (Qlt_le_dec w 420) as [Hlt|Hge].
    + rewrite Hd by lra. lra.
    + rewrite Hc by lra. lra.
Qed.

(** ** Restart *)

Lemma update_single_pipe (g : Game) (p : Pipe.t) :
  pipes g = [p] → Pipe.x p = baseWidth g → length (pipes (update g)) = 1%nat.
Proof.
  intros Hp Hx. destruct (onGround (fall g)) eqn:E.
  - rewrite (update_ground _ E).
    replace (pipes (land (fall g))) with (pipes g) by (by game_cases g).
    by rewrite Hp.
  - rewrite <- (length_map Pipe.geometry), (update_geometry g E), length_map.
    rewrite Hp. cbn [map cull]. destruct (Qltb _ _); [done|].
    unfold spawnDue. cbn [pipes set_pipes last].
    replace (last [movePipe p]) with (Some (movePipe p)) by done.
    replace (Qltb _ _) with false; [done|].
    symmetry. apply Qltb_ge. replace (baseWidth (set_pipes [movePipe p] g))
      with (baseWidth g) by (by destruct g).
    simpl. rewrite Hx. unfold PIPE_INTERVAL, GAME_SPEED. lra.
Qed.

(** X13.  [startGame] throws the previous run away: what it returns does
    not depend on the bird, the pipes, the score or the three flags it
    finds.  It returns a started, unpaused game with exactly one pipe
    and a score of at least 0, after the first tick of the new run. *)
Theorem startGame_fresh (g : Game) :
  (∀ b ps s st pa ov,
     startGame
       (set_gameOver ov (set_gamePaused pa (set_gameStarted st
          (set_score s (set_pipes ps (set_bird b g))))))
     = startGame g)
  ∧ gameStarted (startGame g) = true
  ∧ gamePaused (startGame g) = false
  ∧ length (pipes (startGame g)) = 1%nat
  ∧ (0 <= score (startGame g))%Z
  ∧ bestScore (freshRun g) = bestScore g
  ∧ (stateOf (startGame g) = Some Running ∨ stateOf (startGame g) = Some GameOver).
Proof.
  pose proof (startGame_flags g) as [Hs Hp].
  split_and!; [|done|done| | |by destruct g|].
  - intros b ps s st pa ov. change (startGame ?x) with (animate (freshRun x)).
    f_equal; by destruct g.
  - change (startGame g) with (animate (freshRun g)).
    rewrite animate_running by (by destruct g).
    assert (length (pipes (update (freshRun g))) = 1%nat) as Hlen.
    { apply (update_single_pipe _
               (newPipe (baseWidth g) (random g (randomCalls g))));
        by destruct g. }
    revert Hlen. generalize (update (freshRun g)). intros u Hlen.
    destruct (gameOver u); [exact Hlen|]. by destruct u.
  - apply startGame_best.
  - unfold stateOf. rewrite Hs, Hp. destruct (gameOver (startGame g)); auto.
Qed.

(** ** What is shown *)

(** X14.  In every reachable state the overlay painted on the canvas and
    the label and action of the button agree with the state: the start
    prompt with "Start" before the first start, no overlay with "Pause"
    while running, the paused prompt with "Resume" while paused, the
    game-over summary with "Restart" once the game is over; "Start" and
    "Restart" start a game and "Pause" and "Resume" toggle the pause. *)
Theorem overlay_and_button (g : Game) :
  reachable g →
  match stateOf g with
  | Some NotStarted =>
      overlay g = Some StartPrompt ∧ mainButtonLabel g = "Start"%string
      ∧ onMainButton g = startGame g
  | Some Running =>
      overlay g = None ∧ mainButtonLabel g = "Pause"%string
      ∧ onMainButton g = togglePause g
  | Some Paused =>
      overlay g = Some PausedPrompt ∧ mainButtonLabel g = "Resume"%string
      ∧ onMainButton g = togglePause g
  | Some GameOver =>
      overlay g = Some GameOverSummary ∧ mainButtonLabel g = "Restart"%string
      ∧ onMainButton g = startGame g
  | None => False
  end.
Proof.
  intros Hr. destruct (flagsOk_stateOf g (reachable_flagsOk g Hr)) as [s Hs].
  rewrite Hs. apply stateOf_flags in Hs.
  unfold overlay, mainButtonLabel, onMainButton.
  destruct s; destruct Hs as (-> & -> & ->); done.
Qed.

(** ** One point per tick *)

















(** ** Instances of the further properties *)

Lemma run_pageReachable (es : list Event) (g g1 : Game) :
  pageReachable g → forallb isPageEvent es = true → run es g = Some g1 →
  pageReachable g1.
Proof.
  revert g. induction es as [|e es IH]; intros g Hr Hall Hrun; simpl in Hrun.
  - by injection Hrun as <-.
  - simpl in Hall. apply andb_true_iff in Hall as [He Hall].
    destruct (handle e g) as [g2|] eqn:E; [|done].
    apply (IH g2); [|done|done]. by eapply pageReachable_step.
Qed.

Lemma pageReachable_playing : pageReachable playing.
Proof.
  apply (pageReachable_step mounted playing Pointer);
    [exact (pageReachable_mount midDraw 500 ∅)|reflexivity|].
  vm_compute; reflexivity.
Qed.

Lemma pageReachable_crashed : pageReachable crashed.
Proof.
  apply (run_pageReachable fallTrace mounted crashed);
    [exact (pageReachable_mount midDraw 500 ∅)| |]; vm_compute; reflexivity.
Qed.

Lemma state_transitions_witness :
  ∃ s1, stateOf pausedGame = Some s1 ∧ allowedTransition Running s1 = true.
Proof.
  apply (state_transitions playing pausedGame CallTogglePause Running
           reachable_playing); vm_compute; reflexivity.
Defined.

Lemma one_pending_frame_witness :
  ∃ h, animationFrame playing = Some h ∧ frameQueue playing = {[h]}.
Proof.
  destruct (one_pending_frame playing pageReachable_playing) as [H _].
  apply H. vm_compute; reflexivity.
Defined.

Lemma game_over_is_final_witness :
  resizeCanvas 300 crashed = startGame crashed
  ∨ (stateOf (resizeCanvas 300 crashed) = Some GameOver
     ∧ bird (resizeCanvas 300 crashed) = bird crashed
     ∧ pipes (resizeCanvas 300 crashed) = pipes crashed
     ∧ score (resizeCanvas 300 crashed) = score crashed).
Proof.
  apply (game_over_is_final crashed (resizeCanvas 300 crashed) (Resize 300)
           pageReachable_crashed); [vm_compute; reflexivity|reflexivity|reflexivity].
Defined.



Lemma pipes_well_shaped_witness : Forall wellShaped (pipes playing).
Proof.
  apply (pipes_well_shaped playing reachable_playing).
  intros n. split; [apply Qltb_ge|apply Qltb_lt]; vm_compute; reflexivity.
Defined.

Lemma overlay_and_button_witness :
  overlay pausedGame = Some PausedPrompt
  ∧ mainButtonLabel pausedGame = "Resume"%string
  ∧ onMainButton pausedGame = togglePause pausedGame.
Proof.
  pose proof (overlay_and_button pausedGame reachable_pausedGame) as H.
  replace (stateOf pausedGame) with (Some Paused) in H
    by (vm_compute; reflexivity).
  exact H.
Defined.

